(** * Pull-through cache of the registry: blob handler, proxied registry,
      and the blob store contract exercised by the storage tests.

    The development follows the Go sources
      registry/handlers/blob.go,
      registry/proxy/proxyregistry.go and
      registry/storage/blob_test.go.
    Go methods that talk to a collaborator (a blob store, the descriptor
    service, the challenge manager, the scheduler's registered callbacks)
    are embedded as programs over the calls they issue; a program is run
    against an environment that answers the calls, and the run records the
    calls in the order they were issued.  Logging is not modelled. *)

From Stdlib Require Import ZArith String Ascii List DecimalString.
From Stdlib.Strings Require Import Byte.
From stdpp Require Import base option gmap strings list.

Local Open Scope string_scope.
Local Open Scope Z_scope.
Local Open Scope list_scope.

(** ** Shared data: digests, descriptors, references, errors *)

Module distribution.

(** [digest.Digest] is a Go string type; equality is equality of the
    canonical string. *)
Definition Digest := string.

(** [distribution.Descriptor].  [Size] is an int64, [Annotations] a
    [map[string]string]; indexing a nil map behaves as indexing the
    empty map. *)
Record Descriptor : Type := mkDescriptor {
  MediaType : string;
  Size : Z;
  dDigest : Digest;
  Annotations : gmap string string
}.

(** The zero value [distribution.Descriptor{}]. *)
Definition zeroDescriptor : Descriptor :=
  {| MediaType := ""; Size := 0; dDigest := ""; Annotations := ∅ |}.

Definition withAnnotations (d : Descriptor) (a : gmap string string) : Descriptor :=
  {| MediaType := MediaType d; Size := Size d; dDigest := dDigest d;
     Annotations := a |}.

#[global] Instance Descriptor_eq_dec : EqDecision Descriptor.
Proof. solve_decision. Defined.

(** Go errors.  The sentinels are package variables compared with [==];
    [ErrBlobMounted] and [ErrBlobMountedFrom] are struct errors found with
    [errors.As]; [ErrWrap] is an error that wraps another one (as
    [fmt.Errorf] with the w verb builds). *)
Inductive error : Type :=
| ErrBlobUnknown
| ErrUnsupported
| ErrBlobMounted (desc : Descriptor)
| ErrBlobMountedFrom (from : string) (desc : Descriptor)
| ErrBlobInvalidDigest (dgst : Digest)
| ErrOther (msg : string)
| ErrWrap (msg : string) (inner : error).

#[global] Instance error_eq_dec : EqDecision error.
Proof. solve_decision. Defined.

(** [errors.As(err, &ebm)] with [ebm] of type [ErrBlobMounted]: walks the
    chain of wrapped errors and reports the first one of that type. *)
Fixpoint As_ErrBlobMounted (err : error) : option Descriptor :=
  match err with
  | ErrBlobMounted desc => Some desc
  | ErrWrap _ inner => As_ErrBlobMounted inner
  | _ => None
  end.

(** A Go result pair [(v, err)]: [err == nil] is [Ok]. *)
Inductive result (A : Type) : Type :=
| Ok (a : A)
| Err (e : error).
Arguments Ok {A} a.
Arguments Err {A} e.

End distribution.
Export distribution.

(** ** Programs over collaborator calls *)

Section Prog.
Context {call : Type} {ans : call -> Type}.

(** A program either returns, or issues a call and continues with the
    collaborator's answer. *)
Inductive prog (R : Type) : Type :=
| Ret (r : R)
| Vis (c : call) (k : ans c -> prog R).
Arguments Ret {R} r.
Arguments Vis {R} c k.

Fixpoint bind {A B : Type} (p : prog A) (f : A -> prog B) : prog B :=
  match p with
  | Ret a => f a
  | Vis c k => Vis c (fun x => bind (k x) f)
  end.

Definition trigger (c : call) : prog (ans c) := Vis c Ret.

(** An environment answers each call and moves to a new state. *)
Definition env (W : Type) : Type := forall c : call, W -> ans c * W.

(** Running a program: the value returned, the final state of the
    environment, and the calls issued, oldest first. *)
Fixpoint run {W R : Type} (h : env W) (p : prog R) (w : W) : R * W * list call :=
  match p with
  | Ret r => (r, w, [])
  | Vis c k =>
      let '(a, w1) := h c w in
      let '(r, w2, t) := run h (k a) w1 in
      (r, w2, c :: t)
  end.

Definition result_of {W R : Type} (h : env W) (p : prog R) (w : W) : R :=
  (run h p w).1.1.
Definition state_of {W R : Type} (h : env W) (p : prog R) (w : W) : W :=
  (run h p w).1.2.
Definition calls_of {W R : Type} (h : env W) (p : prog R) (w : W) : list call :=
  (run h p w).2.

End Prog.

Arguments prog {call} ans R.
Arguments Ret {call ans R} r.
Arguments Vis {call ans R} c k.
Arguments env {call} ans W.

Declare Scope prog_scope.
Delimit Scope prog_scope with prog.
Notation "x <- p ;; q" := (bind p (fun x => q))
  (at level 100, p at next level, right associativity) : prog_scope.

(** ** registry/handlers/blob.go *)

Module handlers.

(** [distribution.BlobCreateOption]s the handler passes to [Create]. *)
Inductive BlobCreateOption : Type :=
| WithMount (dgst : Digest)
| WithMountFrom (ref : string)
| WithoutUpload.

#[global] Instance BlobCreateOption_eq_dec : EqDecision BlobCreateOption.
Proof. solve_decision. Defined.

(** A [distribution.BlobWriter]; only its identity matters here. *)
Record BlobWriter : Type := mkBlobWriter { ID : string }.

(** The calls a blob handler issues on [bh.Repository.Blobs(bh)]. *)
Inductive call : Type :=
| Stat (dgst : Digest)
| Create (opts : list BlobCreateOption)
| ServeBlob (dgst : Digest)
| Delete (dgst : Digest).

#[global] Instance call_eq_dec : EqDecision call.
Proof. solve_decision. Defined.

Definition ans (c : call) : Type :=
  match c with
  | Stat _ => result Descriptor
  | Create _ => result BlobWriter
  | ServeBlob _ => option error
  | Delete _ => option error
  end.

(** Registry API error codes used by the blob handlers. *)
Inductive ErrorCode : Type :=
| ErrorCodeUnknown
| ErrorCodeUnsupported
| ErrorCodeBlobUnknown
| ErrorCodeDigestInvalid.

Inductive detail : Type :=
| DetailDigest (dgst : Digest)
| DetailError (e : error).

(** An element of [ctx.Errors] (an [errcode.Errors], a slice of Go
    errors): an error code with a detail ([code.WithDetail(d)]), a bare
    error code, or an arbitrary error. *)
Inductive ctxError : Type :=
| WithDetail (code : ErrorCode) (d : detail)
| Bare (code : ErrorCode)
| Raw (e : error).

(** The part of [*Context] the blob handlers read and write. *)
Record Context : Type := mkContext {
  Errors : list ctxError;
  readOnly : bool
}.

Definition appendError (ctx : Context) (e : ctxError) : Context :=
  {| Errors := Errors ctx ++ [e]; readOnly := readOnly ctx |}.

(** What a handler itself wrote to the [http.ResponseWriter]. *)
Record Response : Type := mkResponse {
  header : list (string * string);
  status : option Z
}.

Definition noResponse : Response := {| header := []; status := None |}.

(** [blobHandler.GetBlob]. *)
Definition GetBlob (Digest : Digest) (bh : Context) : prog ans Context :=
  (let blobDigest := Digest in
   r <- trigger (Stat Digest) ;;
   match r with
   | Err err =>
       if decide (err = ErrBlobUnknown) then
         m <- trigger (Create [WithMount Digest; WithoutUpload]) ;;
         match m with
         | Err err' =>
             match As_ErrBlobMounted err' with
             | Some _ =>
                 s <- trigger (ServeBlob blobDigest) ;;
                 match s with
                 | Some e => Ret (appendError bh (WithDetail ErrorCodeUnknown (DetailError e)))
                 | None => Ret bh
                 end
             | None =>
                 Ret (appendError bh (WithDetail ErrorCodeBlobUnknown (DetailDigest Digest)))
             end
         | Ok _ =>
             Ret (appendError bh (WithDetail ErrorCodeBlobUnknown (DetailDigest Digest)))
         end
       else
         Ret (appendError bh (WithDetail ErrorCodeUnknown (DetailError err)))
   | Ok desc =>
       let blobDigest := dDigest desc in
       s <- trigger (ServeBlob blobDigest) ;;
       match s with
       | Some e => Ret (appendError bh (WithDetail ErrorCodeUnknown (DetailError e)))
       | None => Ret bh
       end
   end)%prog.

(** [blobHandler.DeleteBlob]; the response is what the handler writes
    itself on success. *)
Definition DeleteBlob (Digest : Digest) (bh : Context) : prog ans (Context * Response) :=
  (r <- trigger (Delete Digest) ;;
   match r with
   | Some err =>
       if decide (err = ErrUnsupported) then
         Ret (appendError bh (Bare ErrorCodeUnsupported), noResponse)
       else if decide (err = ErrBlobUnknown) then
         Ret (appendError bh (Bare ErrorCodeBlobUnknown), noResponse)
       else
         Ret (appendError bh (Raw err), noResponse)
   | None =>
       Ret (bh, {| header := [("Content-Length", "0")]; status := Some 202 |})
   end)%prog.

(** The function values [blobDispatcher] hands out. *)
Inductive handlerFunc : Type :=
| GetBlobFunc (dgst : Digest)
| DeleteBlobFunc (dgst : Digest)
| DigestInvalidFunc (err : error).

(** An [http.Handler] as [blobDispatcher] builds it: a plain
    [http.HandlerFunc], or a gorilla [handlers.MethodHandler], a map from
    the HTTP method to the handler. *)
Inductive Handler : Type :=
| HandlerFunc (f : handlerFunc)
| MethodHandler (m : gmap string handlerFunc).

Definition MethodGet : string := "GET".
Definition MethodHead : string := "HEAD".
Definition MethodDelete : string := "DELETE".

(** The sentinel [errDigestNotAvailable] of the handlers package. *)
Definition errDigestNotAvailable : error := ErrOther "digest not available".

Section Dispatcher.
(** [getDigest] lives in another file of the package; the dispatcher
    only branches on its outcome. *)
Variable getDigest : Context -> result Digest.

(** [blobDispatcher]. *)
Definition blobDispatcher (ctx : Context) : Handler :=
  match getDigest ctx with
  | Err err =>
      if decide (err = errDigestNotAvailable) then
        HandlerFunc (DigestInvalidFunc err)
      else
        HandlerFunc (DigestInvalidFunc err)
  | Ok dgst =>
      let mhandler : gmap string handlerFunc :=
        <[MethodHead := GetBlobFunc dgst]> (<[MethodGet := GetBlobFunc dgst]> ∅) in
      let mhandler :=
        if negb (readOnly ctx) then <[MethodDelete := DeleteBlobFunc dgst]> mhandler
        else mhandler in
      MethodHandler mhandler
  end.
End Dispatcher.

(** Calling a handler function on the shared [*Context]. *)
Definition call_handlerFunc (f : handlerFunc) (ctx : Context) : prog ans (Context * Response) :=
  match f with
  | GetBlobFunc dgst => (c <- GetBlob dgst ctx ;; Ret (c, noResponse))%prog
  | DeleteBlobFunc dgst => DeleteBlob dgst ctx
  | DigestInvalidFunc err =>
      Ret (appendError ctx (WithDetail ErrorCodeDigestInvalid (DetailError err)), noResponse)
  end.

(** The handler function a [Handler] runs for a request method; a
    [MethodHandler] has none for a method that is not registered. *)
Definition handler_for (h : Handler) (method : string) : option handlerFunc :=
  match h with
  | HandlerFunc f => Some f
  | MethodHandler m => m !! method
  end.

(** The outcome of an auto-mount attempt that lets [GetBlob] go on:
    [Create] failed with an error in whose chain [errors.As] finds an
    [ErrBlobMounted]. *)
Definition mounted (m : result BlobWriter) : Prop :=
  exists err, m = Err err /\ is_Some (As_ErrBlobMounted err).

Definition isServe (c : call) : bool :=
  match c with ServeBlob _ => true | _ => false end.

(** Whether a run served a blob: it issued a [ServeBlob] call. *)
Definition served (t : list call) : bool := existsb isServe t.

Definition isDelete (c : call) : bool :=
  match c with Delete _ => true | _ => false end.

Definition isCreate (c : call) : bool :=
  match c with Create _ => true | _ => false end.

End handlers.

(** ** registry/proxy/proxyregistry.go *)

Module proxy.

(** Go pointers and interface values that are shared between objects are
    kept as locations, so that sharing is equality of locations. *)
Definition loc := positive.

(** The part of [url.URL] the proxy uses. *)
Record URL : Type := mkURL { Scheme : string; Host : string; Path : string }.

#[global] Instance URL_eq_dec : EqDecision URL.
Proof. solve_decision. Defined.

(** Whether the first segment of a path (up to its first slash) holds a
    colon. *)
Fixpoint colonInFirstSegment (path : string) : bool :=
  match path with
  | EmptyString => false
  | String c rest =>
      if Ascii.eqb c "/"%char then false
      else if Ascii.eqb c ":"%char then true
      else colonInFirstSegment rest
  end.

(** [url.URL.String] for a URL of these three fields, that is one with
    no opaque part, user information, query or fragment, whose host and
    path need no escaping: a scheme is followed by a colon; the two
    slashes and the host are written when there is a scheme or a host
    (the slashes only with a host or a path); a path that does not
    start with a slash is separated from a host by one; and a path
    written first whose first segment holds a colon is prefixed with
    [./]. *)
Definition URL_String (u : URL) : string :=
  let scheme := if decide (Scheme u = "") then "" else (Scheme u ++ ":")%string in
  let authority :=
    if decide (Scheme u = "" /\ Host u = "") then ""
    else ((if decide (Host u = "" /\ Path u = "") then "" else "//") ++ Host u)%string in
  let slash :=
    match Path u with
    | EmptyString => ""
    | String c _ =>
        if Ascii.eqb c "/"%char then "" else if decide (Host u = "") then "" else "/"
    end in
  let buf := (scheme ++ authority ++ slash)%string in
  let dot :=
    if decide (buf = "") then (if colonInFirstSegment (Path u) then "./" else "") else "" in
  (buf ++ dot ++ Path u)%string.

Arguments URL_String : simpl never.

Definition withPath (u : URL) (p : string) : URL :=
  {| Scheme := Scheme u; Host := Host u; Path := p |}.

(** Modelled from the spec: the reference package is not under src/.  A
    reference is either a canonical reference (repository name and
    digest) or a tag reference (repository name and tag string); a bare
    repository name is what [reference.WithName] yields in the tests.
    Only [canonicalReference] implements [reference.Canonical]. *)
Inductive Reference : Type :=
| canonicalReference (name : string) (dgst : Digest)
| taggedReference (name : string) (tag : string)
| repository (name : string).

#[global] Instance Reference_eq_dec : EqDecision Reference.
Proof. solve_decision. Defined.

(** The type assertion [ref.(reference.Canonical)]. *)
Definition asCanonical (ref : Reference) : option (string * Digest) :=
  match ref with
  | canonicalReference name dgst => Some (name, dgst)
  | _ => None
  end.

(** *** The descriptor service and [setPublic] *)

Module ds.
(** Calls on [pr.descriptorService], a
    [distribution.BlobDescriptorService]. *)
Inductive call : Type :=
| Stat (dgst : Digest)
| SetDescriptor (dgst : Digest) (desc : Descriptor).

#[global] Instance call_eq_dec : EqDecision call.
Proof. solve_decision. Defined.

Definition ans (c : call) : Type :=
  match c with
  | Stat _ => result Descriptor
  | SetDescriptor _ _ => option error
  end.

End ds.

(** [proxyingRegistry.setPublic]: the pair [(public, err)]. *)
Definition setPublic (dgst : Digest) : prog ds.ans (bool * option error) :=
  (r <- trigger (ds.Stat dgst) ;;
   let '(desc, err) :=
     match r with
     | Ok desc => (desc, None)
     | Err err =>
         if decide (err = ErrBlobUnknown) then (zeroDescriptor, None)
         else (zeroDescriptor, Some err)
     end in
   match err with
   | Some err => Ret (false, Some err)
   | None =>
       match Annotations desc !! "public" with
       | None =>
           let desc := withAnnotations desc {[ "public" := "true" ]} in
           e <- trigger (ds.SetDescriptor dgst desc) ;;
           match e with
           | Some err => Ret (false, Some err)
           | None => Ret (true, None)
           end
       | Some _ => Ret (false, None)
       end
   end)%prog.

(** Modelled from the spec: [BlobEnumerator.Enumerate] of the embedded
    namespace is not under src/.  It scans every blob of the local
    namespace, handing each digest to the ingester; the scan ends at
    the first error the ingester returns, and that error is the result. *)
Fixpoint Enumerate {call : Type} {ans : call -> Type} {A : Type}
    (blobs : list Digest) (ingester : A -> Digest -> prog ans (A * option error))
    (acc : A) : prog ans (A * option error) :=
  match blobs with
  | [] => Ret (acc, None)
  | dgst :: rest =>
      (r <- ingester acc dgst ;;
       match r.2 with
       | Some err => Ret (r.1, Some err)
       | None => Enumerate rest ingester r.1
       end)%prog
  end.

(** The closure [setBlobsPublic] hands to [Enumerate]; its captured
    counters [(blobCount, blobTaggedCount)] are threaded through the
    scan. *)
Definition scanIngester (counts : nat * nat) (dgst : Digest)
  : prog ds.ans ((nat * nat) * option error) :=
  (let '(blobCount, blobTaggedCount) := counts in
   p <- setPublic dgst ;;
   match p.2 with
   | Some err => Ret ((blobCount, blobTaggedCount), Some err)
   | None =>
       let blobCount := S blobCount in
       if p.1 then Ret ((blobCount, S blobTaggedCount), None)
       else Ret ((blobCount, blobTaggedCount), None)
   end)%prog.

(** [proxyingRegistry.setBlobsPublic] over the blobs of [pr.embedded];
    the counters, which the code logs, are returned. *)
Definition setBlobsPublic (embeddedBlobs : list Digest) : prog ds.ans (nat * nat) :=
  (r <- Enumerate embeddedBlobs scanIngester (0%nat, 0%nat) ;;
   Ret r.1)%prog.

(** Modelled from the spec: the descriptor cache service behind
    [pr.descriptorService] is not under src/.  It is keyed by the blob
    digest; here it is an in-memory map from digest to descriptor whose
    [Stat] answers [ErrBlobUnknown] for an absent digest and whose
    [SetDescriptor] always succeeds. *)
Definition memDescriptorService : env ds.ans (gmap Digest Descriptor) :=
  fun c =>
    match c return gmap Digest Descriptor -> ds.ans c * gmap Digest Descriptor with
    | ds.Stat dgst => fun m =>
        (match m !! dgst with Some desc => Ok desc | None => Err ErrBlobUnknown end, m)
    | ds.SetDescriptor dgst desc => fun m => (None, <[dgst := desc]> m)
    end.

(** The descriptor [setPublic] works on: the cached one, or the zero
    descriptor when the digest is unknown; and the descriptor it stores. *)
Definition cached (m : gmap Digest Descriptor) (dgst : Digest) : Descriptor :=
  default zeroDescriptor (m !! dgst).
Definition marked (desc : Descriptor) : Descriptor :=
  withAnnotations desc {[ "public" := "true" ]}.

(** What one [setPublic] leaves in the in-memory service, and what a scan
    over a list of digests leaves. *)
Definition markedCache (dgst : Digest) (m : gmap Digest Descriptor)
  : gmap Digest Descriptor :=
  match Annotations (cached m dgst) !! "public" with
  | Some _ => m
  | None => <[dgst := marked (cached m dgst)]> m
  end.

Definition scannedCache (blobs : list Digest) (m : gmap Digest Descriptor)
  : gmap Digest Descriptor :=
  foldl (fun m dgst => markedCache dgst m) m blobs.

(** The digests a run asked the descriptor service about, in order. *)
Definition statDigests (t : list ds.call) : list Digest :=
  omap (fun c => match c with ds.Stat dgst => Some dgst | _ => None end) t.

(** Whether a descriptor service state holds [public=true] for a digest. *)
Definition isPublic (m : gmap Digest Descriptor) (dgst : Digest) : Prop :=
  exists desc, m !! dgst = Some desc /\ Annotations desc !! "public" = Some "true".

(** *** The expiry callbacks registered on the scheduler *)

Module expire.
(** Calls of the two callbacks: on the local namespace [registry], on
    the repository it yields, and on the vacuum [v]. *)
Inductive call : Type :=
| Repository (name : string)
| BlobsDelete (repo : loc) (dgst : Digest)
| RemoveBlob (dgst : string)
| Manifests (repo : loc)
| ManifestsDelete (manifests : loc) (dgst : Digest).

#[global] Instance call_eq_dec : EqDecision call.
Proof. solve_decision. Defined.

Definition ans (c : call) : Type :=
  match c with
  | Repository _ => result loc
  | BlobsDelete _ _ => option error
  | RemoveBlob _ => option error
  | Manifests _ => result loc
  | ManifestsDelete _ _ => option error
  end.

End expire.

(** The dynamic type name that the verb [%T] prints. *)
Definition typeName (ref : Reference) : string :=
  match ref with
  | canonicalReference _ _ => "reference.canonicalReference"
  | taggedReference _ _ => "reference.taggedReference"
  | repository _ => "reference.repository"
  end.

Definition unexpectedReferenceType (ref : Reference) : error :=
  ErrOther ("unexpected reference type : " ++ typeName ref)%string.

(** The function passed to [s.OnBlobExpire]. *)
Definition onBlobExpire (ref : Reference) : prog expire.ans (option error) :=
  match asCanonical ref with
  | None => Ret (Some (unexpectedReferenceType ref))
  | Some (name, dgst) =>
      (r <- trigger (expire.Repository name) ;;
       match r with
       | Err err => Ret (Some err)
       | Ok repo =>
           e <- trigger (expire.BlobsDelete repo dgst) ;;
           match e with
           | Some err => Ret (Some err)
           | None =>
               e <- trigger (expire.RemoveBlob dgst) ;;
               match e with
               | Some err => Ret (Some err)
               | None => Ret None
               end
           end
       end)%prog
  end.

(** The function passed to [s.OnManifestExpire]. *)
Definition onManifestExpire (ref : Reference) : prog expire.ans (option error) :=
  match asCanonical ref with
  | None => Ret (Some (unexpectedReferenceType ref))
  | Some (name, dgst) =>
      (r <- trigger (expire.Repository name) ;;
       match r with
       | Err err => Ret (Some err)
       | Ok repo =>
           m <- trigger (expire.Manifests repo) ;;
           match m with
           | Err err => Ret (Some err)
           | Ok manifests =>
               e <- trigger (expire.ManifestsDelete manifests dgst) ;;
               match e with
               | Some err => Ret (Some err)
               | None => Ret None
               end
           end
       end)%prog
  end.

(** *** The remote auth challenger *)

(** [remoteAuthChallenger]: the challenge manager and the credential
    store are kept by location; the embedded mutex is the challenger's
    own and is reached through the calls [Lock] and [Unlock]. *)
Record remoteAuthChallenger : Type := mkRemoteAuthChallenger {
  remoteURL : URL;
  cm : loc;
  cs : loc
}.

#[global] Instance remoteAuthChallenger_eq_dec : EqDecision remoteAuthChallenger.
Proof. solve_decision. Defined.

Definition credentialStore (r : remoteAuthChallenger) : loc := cs r.
Definition challengeManager (r : remoteAuthChallenger) : loc := cm r.

(** A [challenge.Challenge]. *)
Record Challenge : Type := mkChallenge {
  cScheme : string;
  Parameters : gmap string string
}.

Module challenger.
(** Calls of [tryEstablishChallenges]: the mutex, the challenge manager,
    and the package function [ping], which is not under src/ and is
    taken as a call: it sends an unauthenticated GET to the endpoint
    and registers the challenges of the response with the manager. *)
Inductive call : Type :=
| Lock
| Unlock
| GetChallenges (manager : loc) (endpoint : URL)
| ping (manager : loc) (endpoint : string) (versionHeader : string).

#[global] Instance call_eq_dec : EqDecision call.
Proof. solve_decision. Defined.

Definition ans (c : call) : Type :=
  match c with
  | Lock | Unlock => unit
  | GetChallenges _ _ => result (list Challenge)
  | ping _ _ _ => option error
  end.

(** A call that goes to the network. *)
Definition isNetwork (c : call) : bool :=
  match c with ping _ _ _ => true | _ => false end.
End challenger.

Section Challenger.
(** The package constant [challengeHeader] is declared outside src/. *)
Variable challengeHeader : string.

(** [remoteAuthChallenger.tryEstablishChallenges]; the deferred
    [Unlock] runs on every return path. *)
Definition tryEstablishChallenges (r : remoteAuthChallenger)
  : prog challenger.ans (option error) :=
  (_ <- trigger challenger.Lock ;;
   ret <- (let remoteURL := withPath (remoteURL r) "/v2/" in
           c <- trigger (challenger.GetChallenges (cm r) remoteURL) ;;
           match c with
           | Err err => Ret (Some err)
           | Ok challenges =>
               if decide (0 < length challenges)%nat then Ret None
               else
                 e <- trigger (challenger.ping (cm r) (URL_String remoteURL) challengeHeader) ;;
                 match e with
                 | Some err => Ret (Some err)
                 | None => Ret None
                 end
           end) ;;
   _ <- trigger challenger.Unlock ;;
   Ret ret)%prog.
End Challenger.

(** *** The proxied registry *)

(** [proxyingRegistry]. *)
Record proxyingRegistry : Type := mkProxyingRegistry {
  embedded : loc;
  scheduler : loc;
  pr_remoteURL : URL;
  authChallenger : remoteAuthChallenger;
  descriptorService : loc
}.

(** [configuration.Proxy]. *)
Record Proxy : Type := mkProxy {
  RemoteURL : string;
  Username : string;
  Password : string
}.

Module startup.
(** Calls of [NewRegistryPullThroughCache].  [OnBlobExpire] and
    [OnManifestExpire] register the two callbacks above on the
    scheduler, with the namespace and the vacuum their closures capture;
    [goSetBlobsPublic] is the statement [go p.setBlobsPublic(ctx)]. *)
Inductive call : Type :=
| urlParse (rawURL : string)
| NewVacuum (driver : loc)
| schedulerNew (driver : loc) (path : string)
| OnBlobExpire (s : loc) (registry : loc) (v : loc)
| OnManifestExpire (s : loc) (registry : loc)
| Start (s : loc)
| configureAuth (username password remoteURL : string)
| NewSimpleManager
| goSetBlobsPublic (p : proxyingRegistry).

Definition ans (c : call) : Type :=
  match c with
  | urlParse _ => result URL
  | NewVacuum _ => loc
  | schedulerNew _ _ => loc
  | OnBlobExpire _ _ _ | OnManifestExpire _ _ => unit
  | Start _ => option error
  | configureAuth _ _ _ => result loc
  | NewSimpleManager => loc
  | goSetBlobsPublic _ => unit
  end.

Definition isGo (c : call) : bool :=
  match c with goSetBlobsPublic _ => true | _ => false end.
End startup.

(** [NewRegistryPullThroughCache]. *)
Definition NewRegistryPullThroughCache (registry driver : loc) (config : Proxy) (ds : loc)
  : prog startup.ans (result proxyingRegistry) :=
  (u <- trigger (startup.urlParse (RemoteURL config)) ;;
   match u with
   | Err err => Ret (Err err)
   | Ok remoteURL =>
       v <- trigger (startup.NewVacuum driver) ;;
       s <- trigger (startup.schedulerNew driver "/scheduler-state.json") ;;
       _ <- trigger (startup.OnBlobExpire s registry v) ;;
       _ <- trigger (startup.OnManifestExpire s registry) ;;
       e <- trigger (startup.Start s) ;;
       match e with
       | Some err => Ret (Err err)
       | None =>
           c <- trigger (startup.configureAuth (Username config) (Password config) (RemoteURL config)) ;;
           match c with
           | Err err => Ret (Err err)
           | Ok cs =>
               cm <- trigger startup.NewSimpleManager ;;
               let p := {| embedded := registry;
                           scheduler := s;
                           pr_remoteURL := remoteURL;
                           authChallenger :=
                             {| remoteURL := remoteURL; cm := cm; cs := cs |};
                           descriptorService := ds |} in
               _ <- trigger (startup.goSetBlobsPublic p) ;;
               Ret (Ok p)
           end
       end
   end)%prog.

(** *** [proxyingRegistry.Repository] *)

(** Values of the client packages that [Repository] builds; the
    constructors stand for the calls of the same name. *)
Inductive Scope : Type :=
| RepositoryScope (Repository : string) (Actions : list string).

Inductive BaseTransport : Type := DefaultTransport.

Record TokenHandlerOptions : Type := mkTokenHandlerOptions {
  Transport : BaseTransport;
  Credentials : loc;
  Scopes : list Scope
}.

Inductive AuthenticationHandler : Type :=
| NewTokenHandlerWithOptions (options : TokenHandlerOptions).

Inductive RequestModifier : Type :=
| NewAuthorizer (manager : loc) (handlers : list AuthenticationHandler).

Inductive RoundTripper : Type :=
| NewTransport (base : BaseTransport) (modifiers : list RequestModifier).

#[global] Instance Scope_eq_dec : EqDecision Scope.
Proof. solve_decision. Defined.
#[global] Instance BaseTransport_eq_dec : EqDecision BaseTransport.
Proof. solve_decision. Defined.
#[global] Instance TokenHandlerOptions_eq_dec : EqDecision TokenHandlerOptions.
Proof. solve_decision. Defined.
#[global] Instance AuthenticationHandler_eq_dec : EqDecision AuthenticationHandler.
Proof. solve_decision. Defined.
#[global] Instance RequestModifier_eq_dec : EqDecision RequestModifier.
Proof. solve_decision. Defined.
#[global] Instance RoundTripper_eq_dec : EqDecision RoundTripper.
Proof. solve_decision. Defined.

(** The scopes of the token handlers of a transport. *)
Definition transportScopes (tr : RoundTripper) : list Scope :=
  match tr with
  | NewTransport _ modifiers =>
      mjoin ((fun m => match m with
              | NewAuthorizer _ handlers =>
                  mjoin ((fun h => match h with
                          | NewTokenHandlerWithOptions o => Scopes o
                          end) <$> handlers)
              end) <$> modifiers)
  end.

Inductive ManifestServiceOption : Type := SkipLayerVerification.

(** The stores a repository handle gives access to: [repo.Blobs(ctx)]
    and [repo.Tags(ctx)]. *)
Inductive BlobStore : Type := Blobs (repo : loc).
Inductive TagService : Type := Tags (repo : loc).

(** The closure [pr.setBlobPublic(ctx)], which runs [setPublic] on the
    descriptor service of [pr]. *)
Inductive setPublicFunc : Type := setBlobPublic (descriptorService : loc).

Module proxyBlobStore.
Record t : Type := mk {
  localStore : BlobStore;
  remoteStore : BlobStore;
  scheduler : loc;
  repositoryName : string;
  authChallenger : remoteAuthChallenger;
  setPublic : setPublicFunc
}.
End proxyBlobStore.

Module proxyManifestStore.
Record t : Type := mk {
  repositoryName : string;
  localManifests : loc;
  remoteManifests : loc;
  scheduler : loc;
  authChallenger : remoteAuthChallenger
}.
End proxyManifestStore.

Module proxyTagService.
Record t : Type := mk {
  localTags : TagService;
  remoteTags : TagService;
  authChallenger : remoteAuthChallenger
}.
End proxyTagService.

Module proxiedRepository.
Record t : Type := mk {
  blobStore : proxyBlobStore.t;
  manifests : proxyManifestStore.t;
  name : string;
  tags : proxyTagService.t
}.
End proxiedRepository.

(** The shared objects a service is wired to, by kind. *)
Inductive wire : Type :=
| toScheduler (s : loc)
| toAuthChallenger (c : remoteAuthChallenger).

#[global] Instance wire_eq_dec : EqDecision wire.
Proof. solve_decision. Defined.

Definition blobStoreWires (b : proxyBlobStore.t) : list wire :=
  [toScheduler (proxyBlobStore.scheduler b);
   toAuthChallenger (proxyBlobStore.authChallenger b)].
Definition manifestsWires (m : proxyManifestStore.t) : list wire :=
  [toScheduler (proxyManifestStore.scheduler m);
   toAuthChallenger (proxyManifestStore.authChallenger m)].
Definition tagsWires (t : proxyTagService.t) : list wire :=
  [toAuthChallenger (proxyTagService.authChallenger t)].

Module repo.
(** Calls of [Repository]: on the embedded namespace, on the local and
    remote repositories, and [client.NewRepository]. *)
Inductive call : Type :=
| embeddedRepository (registry : loc) (name : string)
| localManifests (localRepo : loc) (options : list ManifestServiceOption)
| NewRepository (name : string) (baseURL : string) (transport : RoundTripper)
| remoteManifests (remoteRepo : loc).

Definition ans (c : call) : Type := result loc.
End repo.

(** [proxyingRegistry.Repository]. *)
Definition Repository (pr : proxyingRegistry) (name : string)
  : prog repo.ans (result proxiedRepository.t) :=
  (let c := authChallenger pr in
   let tkopts := {| Transport := DefaultTransport;
                    Credentials := credentialStore c;
                    Scopes := [RepositoryScope name ["pull"]] |} in
   let tr := NewTransport DefaultTransport
               [NewAuthorizer (challengeManager c) [NewTokenHandlerWithOptions tkopts]] in
   l <- trigger (repo.embeddedRepository (embedded pr) name) ;;
   match l return prog repo.ans (result proxiedRepository.t) with
   | Err err => Ret (Err err)
   | Ok localRepo =>
       lm <- trigger (repo.localManifests localRepo [SkipLayerVerification]) ;;
       match lm return prog repo.ans (result proxiedRepository.t) with
       | Err err => Ret (Err err)
       | Ok localManifests =>
           r <- trigger (repo.NewRepository name (URL_String (pr_remoteURL pr)) tr) ;;
           match r return prog repo.ans (result proxiedRepository.t) with
           | Err err => Ret (Err err)
           | Ok remoteRepo =>
               rm <- trigger (repo.remoteManifests remoteRepo) ;;
               match rm return prog repo.ans (result proxiedRepository.t) with
               | Err err => Ret (Err err)
               | Ok remoteManifests =>
                   Ret (Ok
                     {| proxiedRepository.blobStore :=
                          {| proxyBlobStore.localStore := Blobs localRepo;
                             proxyBlobStore.remoteStore := Blobs remoteRepo;
                             proxyBlobStore.scheduler := scheduler pr;
                             proxyBlobStore.repositoryName := name;
                             proxyBlobStore.authChallenger := authChallenger pr;
                             proxyBlobStore.setPublic := setBlobPublic (descriptorService pr) |};
                        proxiedRepository.manifests :=
                          {| proxyManifestStore.repositoryName := name;
                             proxyManifestStore.localManifests := localManifests;
                             proxyManifestStore.remoteManifests := remoteManifests;
                             proxyManifestStore.scheduler := scheduler pr;
                             proxyManifestStore.authChallenger := authChallenger pr |};
                        proxiedRepository.name := name;
                        proxiedRepository.tags :=
                          {| proxyTagService.localTags := Tags localRepo;
                             proxyTagService.remoteTags := Tags remoteRepo;
                             proxyTagService.authChallenger := authChallenger pr |} |})
               end
           end
       end
   end)%prog.

(** The transport [Repository] builds for a name. *)
Definition pullTransport (pr : proxyingRegistry) (name : string) : RoundTripper :=
  NewTransport DefaultTransport
    [NewAuthorizer (cm (authChallenger pr))
       [NewTokenHandlerWithOptions
          {| Transport := DefaultTransport;
             Credentials := cs (authChallenger pr);
             Scopes := [RepositoryScope name ["pull"]] |}]].

Definition isNewRepository (c : repo.call) : bool :=
  match c with repo.NewRepository _ _ _ => true | _ => false end.

(** An environment for [Repository] in which every call succeeds with
    a fresh location. *)
Definition freshRepoEnv : env repo.ans positive :=
  fun c next => (Ok next, Pos.succ next).

(** A digest whose cached descriptor has an annotation under the key
    public, whatever its value. *)
Definition annotated (m : gmap Digest Descriptor) (dgst : Digest) : Prop :=
  is_Some (Annotations (cached m dgst) !! "public").

(** Calls on the mutex of the challenger. *)
Definition isLocking (c : challenger.call) : bool :=
  match c with challenger.Lock | challenger.Unlock => true | _ => false end.

(** Calls of the expiry callbacks on a manifest service, and calls that
    delete a blob (from the blob store or through the vacuum). *)
Definition isManifestCall (c : expire.call) : bool :=
  match c with expire.Manifests _ | expire.ManifestsDelete _ _ => true | _ => false end.

Definition isBlobDeletion (c : expire.call) : bool :=
  match c with expire.BlobsDelete _ _ | expire.RemoveBlob _ => true | _ => false end.

(** [proxiedRepository.Manifests], [Blobs], [Named] and [Tags]. *)
Definition Manifests (pr : proxiedRepository.t) (options : list ManifestServiceOption)
  : result proxyManifestStore.t :=
  Ok (proxiedRepository.manifests pr).

Definition repositoryBlobs (pr : proxiedRepository.t) : proxyBlobStore.t :=
  proxiedRepository.blobStore pr.

Definition Named (pr : proxiedRepository.t) : string := proxiedRepository.name pr.

Definition repositoryTags (pr : proxiedRepository.t) : proxyTagService.t :=
  proxiedRepository.tags pr.

(** A registry as [NewRegistryPullThroughCache] could have built it. *)
Definition sampleRegistry : proxyingRegistry :=
  {| embedded := 1%positive; scheduler := 2%positive;
     pr_remoteURL := {| Scheme := "https"; Host := "registry-1.docker.io"; Path := "" |};
     authChallenger :=
       {| remoteURL := {| Scheme := "https"; Host := "registry-1.docker.io"; Path := "" |};
          cm := 3%positive; cs := 4%positive |};
     descriptorService := 5%positive |}.

End proxy.

(** ** The local blob store, as registry/storage/blob_test.go drives it *)

Module storage.

(** Modelled from the spec: the registry behind [NewRegistry] (the linked
    blob store, its blob writer and the descriptor cache) is not under
    src/; only its tests are.  The local store is content-addressable:
    blob bytes are kept once per digest, a repository sees a blob through
    a link, and the descriptor cache keeps, per digest, the descriptor
    with its annotations. *)
Record Registry : Type := mkRegistry {
  blobs : gmap Digest (list byte);
  links : gset (string * Digest);
  descriptorCache : gmap Digest Descriptor;
  deleteEnabled : bool
}.

(** Modelled from the spec: a registry with no content, as [NewRegistry]
    yields on a fresh driver. *)
Definition NewRegistry (deleteEnabled : bool) : Registry :=
  {| blobs := ∅; links := ∅; descriptorCache := ∅; deleteEnabled := deleteEnabled |}.

(** Modelled from the spec: the blob writer of an upload, which is not
    under src/: the repository it was created in and the bytes written
    so far. *)
Record blobWriter : Type := mkBlobWriter {
  repository : string;
  written : list byte
}.

(** Modelled from the spec: the descriptor under which the store reports
    a blob: its digest, its size in bytes, and the media type the tests
    name. *)
Definition canonical (dgst : Digest) (p : list byte) : Descriptor :=
  {| MediaType := "application/octet-stream";
     Size := Z.of_nat (length p);
     dDigest := dgst;
     Annotations := ∅ |}.

(** Modelled from the spec: linking a blob into a repository and
    removing the link, the two updates the store's operations make. *)
Definition link (repo : string) (dgst : Digest) (reg : Registry) : Registry :=
  {| blobs := blobs reg;
     links := {[ (repo, dgst) ]} ∪ links reg;
     descriptorCache := descriptorCache reg;
     deleteEnabled := deleteEnabled reg |}.

Definition unlink (repo : string) (dgst : Digest) (reg : Registry) : Registry :=
  {| blobs := blobs reg;
     links := links reg ∖ {[ (repo, dgst) ]};
     descriptorCache := descriptorCache reg;
     deleteEnabled := deleteEnabled reg |}.

(** Modelled from the spec: [Stat] of a repository's blob store, not under
    src/: the descriptor of a blob linked into the repository,
    [ErrBlobUnknown] otherwise. *)
Definition Stat (repo : string) (dgst : Digest) (reg : Registry) : result Descriptor :=
  if decide ((repo, dgst) ∈ links reg) then
    match blobs reg !! dgst with
    | Some p => Ok (canonical dgst p)
    | None => Err ErrBlobUnknown
    end
  else Err ErrBlobUnknown.

(** Modelled from the spec: [Open] of a repository's blob store, not under
    src/: the bytes of a blob the repository can [Stat]. *)
Definition Open (repo : string) (dgst : Digest) (reg : Registry) : result (list byte) :=
  match Stat repo dgst reg with
  | Err err => Err err
  | Ok _ =>
      match blobs reg !! dgst with
      | Some p => Ok p
      | None => Err ErrBlobUnknown
      end
  end.

(** Modelled from the spec: the mount test of the local store's [Create],
    not under src/: the digest is known to the descriptor cache and
    annotated [public=true], and there is a blob to link. *)
Definition mountable (dgst : Digest) (reg : Registry) : option Descriptor :=
  match descriptorCache reg !! dgst with
  | Some cached =>
      if decide (Annotations cached !! "public" = Some "true") then
        canonical dgst <$> blobs reg !! dgst
      else None
  | None => None
  end.

(** Modelled from the spec: [Create] of a repository's blob store, not
    under src/.  With the mount option and a mountable digest it links
    the blob into the repository and fails with the [ErrBlobMounted]
    sentinel carrying the mounted descriptor; otherwise it starts an
    upload. *)
Definition Create (repo : string) (mount : option Digest) (reg : Registry)
  : Registry * result blobWriter :=
  match mount with
  | Some dgst =>
      match mountable dgst reg with
      | Some desc => (link repo dgst reg, Err (ErrBlobMounted desc))
      | None => (reg, Ok {| repository := repo; written := [] |})
      end
  | None => (reg, Ok {| repository := repo; written := [] |})
  end.

(** Modelled from the spec: [Write] of the blob writer, not under src/:
    appends, and reports the number of bytes taken. *)
Definition Write (p : list byte) (w : blobWriter) : blobWriter * Z :=
  ({| repository := repository w; written := written w ++ p |}, Z.of_nat (length p)).

(** [io.Copy] into the writer, chunk by chunk. *)
Fixpoint Copy (chunks : list (list byte)) (w : blobWriter) : blobWriter * Z :=
  match chunks with
  | [] => (w, 0)
  | p :: rest =>
      let '(w1, n) := Write p w in
      let '(w2, m) := Copy rest w1 in
      (w2, n + m)
  end.

Section Digest.
(** [digest.FromBytes] of the go-digest library. *)
Variable FromBytes : list byte -> Digest.

(** Modelled from the spec: [Commit] of the blob writer, not under src/:
    the written bytes are stored only if their computed digest equals
    the requested digest; the committed blob is linked into the
    writer's repository and its descriptor returned. *)
Definition Commit (w : blobWriter) (provided : Descriptor) (reg : Registry)
  : Registry * result Descriptor :=
  let dgst := FromBytes (written w) in
  if decide (dDigest provided = dgst) then
    (link (repository w) dgst
       {| blobs := <[dgst := written w]> (blobs reg);
          links := links reg;
          descriptorCache := descriptorCache reg;
          deleteEnabled := deleteEnabled reg |},
     Ok (canonical dgst (written w)))
  else (reg, Err (ErrBlobInvalidDigest (dDigest provided))).

(** Every stored blob sits under the digest of its bytes. *)
Definition contentAddressed (reg : Registry) : Prop :=
  forall dgst p, blobs reg !! dgst = Some p -> FromBytes p = dgst.
End Digest.

(** Modelled from the spec: [Delete] of a repository's blob store, not
    under src/: refused when deletion is not enabled; otherwise it
    removes the repository's link to the blob, which is unknown to a
    repository that has none. *)
Definition Delete (repo : string) (dgst : Digest) (reg : Registry)
  : Registry * option error :=
  if deleteEnabled reg then
    if decide ((repo, dgst) ∈ links reg) then (unlink repo dgst reg, None)
    else (reg, Some ErrBlobUnknown)
  else (reg, Some ErrUnsupported).

(** The descriptor service of the proxy, run on the registry's
    descriptor cache. *)
Definition withDescriptorCache (reg : Registry) (m : gmap Digest Descriptor) : Registry :=
  {| blobs := blobs reg; links := links reg; descriptorCache := m;
     deleteEnabled := deleteEnabled reg |}.

Definition markPublic (dgst : Digest) (reg : Registry) : Registry :=
  withDescriptorCache reg
    (state_of proxy.memDescriptorService (proxy.setPublic dgst) (descriptorCache reg)).

End storage.

(** ** The local namespace behind the expiry callbacks *)

Module localnamespace.
Import proxy storage.

(** Modelled from the spec: the local namespace, its manifest store and
    the vacuum are not under src/.  The namespace is the registry above
    together with the manifests linked into each repository. *)
Record Namespace : Type := mkNamespace {
  registry : Registry;
  manifests : gset (string * Digest)
}.

(** The handle of the repository of a name, and back. *)
Definition repositoryOf (name : string) : loc := encode name.
Definition nameOf (repo : loc) : option string := decode repo.

Definition errUnknownRepository : error := ErrOther "unknown repository handle".
Definition errPathNotFound : error := ErrOther "path not found".

(** Modelled from the spec: the expiry callback deletes the blob from the
    local store and from any descriptor cache: [Delete] of the blob store
    removes the repository's link and clears the descriptor cache entry
    of the digest. *)
Definition deleteBlob (name : string) (dgst : Digest) (ns : Namespace)
  : Namespace * option error :=
  let '(reg, e) := Delete name dgst (registry ns) in
  match e with
  | Some err => (ns, Some err)
  | None =>
      ({| registry := withDescriptorCache reg (delete dgst (descriptorCache reg));
          manifests := manifests ns |}, None)
  end.

(** Modelled from the spec: [RemoveBlob] of the vacuum removes the bytes of
    the digest from the backing storage, which reports a path that does
    not exist. *)
Definition removeBlob (dgst : Digest) (ns : Namespace) : Namespace * option error :=
  match blobs (registry ns) !! dgst with
  | Some _ =>
      ({| registry :=
            {| blobs := delete dgst (blobs (registry ns));
               links := links (registry ns);
               descriptorCache := descriptorCache (registry ns);
               deleteEnabled := deleteEnabled (registry ns) |};
          manifests := manifests ns |}, None)
  | None => (ns, Some errPathNotFound)
  end.

(** Modelled from the spec: [Delete] of the local manifest store deletes
    locally: it removes the repository's link to the manifest, and is
    refused when deletion is not enabled. *)
Definition deleteManifest (name : string) (dgst : Digest) (ns : Namespace)
  : Namespace * option error :=
  if deleteEnabled (registry ns) then
    ({| registry := registry ns; manifests := manifests ns ∖ {[ (name, dgst) ]} |}, None)
  else (ns, Some ErrUnsupported).

(** The local namespace as the expiry callbacks call it. *)
Definition expiryStore : env expire.ans Namespace :=
  fun c =>
    match c return Namespace -> expire.ans c * Namespace with
    | expire.Repository name => fun ns => (Ok (repositoryOf name), ns)
    | expire.BlobsDelete repo dgst => fun ns =>
        match nameOf repo with
        | Some name => let '(ns', e) := deleteBlob name dgst ns in (e, ns')
        | None => (Some errUnknownRepository, ns)
        end
    | expire.RemoveBlob dgst => fun ns =>
        let '(ns', e) := removeBlob dgst ns in (e, ns')
    | expire.Manifests repo => fun ns => (Ok repo, ns)
    | expire.ManifestsDelete service dgst => fun ns =>
        match nameOf service with
        | Some name => let '(ns', e) := deleteManifest name dgst ns in (e, ns')
        | None => (Some errUnknownRepository, ns)
        end
    end.

End localnamespace.

(** ** Helpers of registry/storage/blob_test.go *)

Module blob_test.

(** The [whence] argument of [io.Seeker.Seek]. *)
Inductive whence : Type := SeekStart | SeekCurrent | SeekEnd.

#[global] Instance whence_eq_dec : EqDecision whence.
Proof. solve_decision. Defined.

Module seeker.
(** The one call of an [io.ReadSeeker] that [seekerSize] issues. *)
Inductive call : Type := Seek (offset : Z) (w : whence).

#[global] Instance call_eq_dec : EqDecision call.
Proof. solve_decision. Defined.

Definition ans (c : call) : Type := result Z.
End seeker.

Definition errSeekBack : error :=
  ErrOther "error returning seeker to original state, could not seek back to original location".

(** [seekerSize]. *)
Definition seekerSize : prog seeker.ans (result Z) :=
  (c <- trigger (seeker.Seek 0 SeekCurrent) ;;
   match c return prog seeker.ans (result Z) with
   | Err err => Ret (Err err)
   | Ok current =>
       e <- trigger (seeker.Seek 0 SeekEnd) ;;
       match e return prog seeker.ans (result Z) with
       | Err err => Ret (Err err)
       | Ok end_ =>
           r <- trigger (seeker.Seek current SeekStart) ;;
           match r return prog seeker.ans (result Z) with
           | Err err => Ret (Err err)
           | Ok resumed =>
               if decide (resumed <> current) then Ret (Err errSeekBack)
               else Ret (Ok end_)
           end
       end
   end)%prog.

(** An int64 result of arithmetic on int64 values. *)
Definition int64 (x : Z) : Z := (x + 2 ^ 63) mod 2 ^ 64 - 2 ^ 63.

(** The seeker the tests read from: Go's [bytes.Reader], with its slice
    and its read index. *)
Record Reader : Type := mkReader { s : list byte; i : Z }.

Definition errNegativePosition : error :=
  ErrOther "bytes.Reader.Seek: negative position".

(** [bytes.Reader.Seek] of the Go library. *)
Definition ReaderSeek : env seeker.ans Reader :=
  fun c r =>
    match c with
    | seeker.Seek offset w =>
        let abs :=
          match w with
          | SeekStart => offset
          | SeekCurrent => int64 (i r + offset)
          | SeekEnd => int64 (Z.of_nat (length (s r)) + offset)
          end in
        if decide (abs < 0) then (Err errNegativePosition, r)
        else (Ok abs, {| s := s r; i := abs |})
    end.

(** A valid reader: a slice is shorter than 2^63 and the index is never
    negative. *)
Definition validReader (r : Reader) : Prop :=
  Z.of_nat (length (s r)) < 2 ^ 63 /\ 0 <= i r < 2 ^ 63.

Module ingester.
(** Calls of [addBlob] and [simpleUpload] on the [BlobIngester], on the
    [BlobWriter] it creates and on the libraries: [Copy] is
    [io.Copy(wr, rd)] and answers the number of bytes copied and the
    error; [FromReader] is [digest.FromReader]. *)
Inductive call : Type :=
| Create
| Copy
| FromReader
| Commit (desc : Descriptor)
| Cancel.

#[global] Instance call_eq_dec : EqDecision call.
Proof. solve_decision. Defined.

Definition ans (c : call) : Type :=
  match c with
  | Create => option error
  | Copy => (Z * option error)%type
  | FromReader => result Digest
  | Commit _ => result Descriptor
  | Cancel => option error
  end.

Definition isCommit (c : call) : bool :=
  match c with Commit _ => true | _ => false end.
End ingester.

(** The verb [%v] on an int64. *)
Definition fmtInt (z : Z) : string := NilZero.string_of_int (Z.to_int z).

Definition errIncorrectCopy (nn size : Z) : error :=
  ErrOther ("incorrect number of bytes copied: " ++ fmtInt nn ++ " != " ++ fmtInt size)%string.

(** [addBlob]; the deferred [wr.Cancel] runs on every return path after
    the writer was created, and its result is dropped. *)
Definition addBlob (desc : Descriptor) : prog ingester.ans (result Descriptor) :=
  (c <- trigger ingester.Create ;;
   match c return prog ingester.ans (result Descriptor) with
   | Some err => Ret (Err err)
   | None =>
       ret <- (cp <- trigger ingester.Copy ;;
               match cp.2 return prog ingester.ans (result Descriptor) with
               | Some err => Ret (Err err)
               | None =>
                   if decide (cp.1 <> Size desc) then Ret (Err (errIncorrectCopy cp.1 (Size desc)))
                   else trigger (ingester.Commit desc)
               end) ;;
       _ <- trigger ingester.Cancel ;;
       Ret ret
   end)%prog.

(** An argument of [t.Fatalf]. *)
Inductive arg : Type :=
| ArgError (e : error)
| ArgInt (z : Z)
| ArgDigest (d : Digest).

(** How a test helper ends: it returns, or [t.Fatalf] stops the test. *)
Inductive outcome : Type :=
| Returned
| Fatalf (format : string) (args : list arg).

(** [simpleUpload] for the blob read by [Copy] and [FromReader]. *)
Definition simpleUpload (expectedDigest : Digest) : prog ingester.ans outcome :=
  (c <- trigger ingester.Create ;;
   match c return prog ingester.ans outcome with
   | Some err => Ret (Fatalf "unexpected error starting upload: %v" [ArgError err])
   | None =>
       cp <- trigger ingester.Copy ;;
       match cp.2 return prog ingester.ans outcome with
       | Some err => Ret (Fatalf "error copying into blob writer: %v" [ArgError err])
       | None =>
           if decide (cp.1 <> 0) then
             Ret (Fatalf "unexpected number of bytes copied: %v > 0" [ArgInt cp.1])
           else
             d <- trigger ingester.FromReader ;;
             match d return prog ingester.ans outcome with
             | Err err => Ret (Fatalf "error getting digest: %v" [ArgError err])
             | Ok dgst =>
                 if decide (dgst <> expectedDigest) then
                   Ret (Fatalf "digest not as expected: %v != %v"
                          [ArgDigest dgst; ArgDigest expectedDigest])
                 else
                   m <- trigger (ingester.Commit
                                   {| MediaType := ""; Size := 0; dDigest := dgst;
                                      Annotations := ∅ |}) ;;
                   match m return prog ingester.ans outcome with
                   | Err err => Ret (Fatalf "unexpected error committing write: %v" [ArgError err])
                   | Ok desc =>
                       if decide (dDigest desc <> dgst) then
                         Ret (Fatalf "unexpected digest: %v != %v"
                                [ArgDigest (dDigest desc); ArgDigest dgst])
                       else Ret Returned
                   end
             end
       end
   end)%prog.

End blob_test.

(** ** Sample inputs *)

Module samples.
Import handlers storage.

(** A blob store on which the requested blob is unknown to the
    repository but is mounted on demand and then served. *)
Definition mountingStore : env handlers.ans unit :=
  fun c =>
    match c return unit -> handlers.ans c * unit with
    | handlers.Stat _ => fun _ => (Err ErrBlobUnknown, tt)
    | handlers.Create _ => fun _ =>
        (Err (ErrWrap "mount" (ErrBlobMounted zeroDescriptor)), tt)
    | ServeBlob _ => fun _ => (None, tt)
    | handlers.Delete _ => fun _ => (None, tt)
    end.

Definition emptyContext : Context := {| Errors := []; readOnly := false |}.

(** A stand-in for the digest function that spells the bytes out. *)
Definition plainDigest (p : list byte) : Digest :=
  ("plain:" ++ string_of_list_byte p)%string.

Definition abc : list byte := [x61; x62; x63].

(** A registry in which the bytes [abc] were uploaded to foo/source in
    two writes and then marked public. *)
Definition sourceRegistry : Registry :=
  let reg := NewRegistry true in
  let wr := {| repository := "foo/source"; written := [] |} in
  let committed :=
    Commit plainDigest (Copy [[x61; x62]; [x63]] wr).1
      {| MediaType := ""; Size := 0; dDigest := plainDigest abc; Annotations := ∅ |}
      reg in
  markPublic (plainDigest abc) committed.1.

(** A registry that refuses deletion, as the expiry callbacks call it. *)
Definition refusingStore : env proxy.expire.ans unit :=
  fun c =>
    match c return unit -> proxy.expire.ans c * unit with
    | proxy.expire.Repository _ => fun _ => (Ok 1%positive, tt)
    | proxy.expire.BlobsDelete _ _ => fun _ => (Some ErrUnsupported, tt)
    | proxy.expire.RemoveBlob _ => fun _ => (None, tt)
    | proxy.expire.Manifests _ => fun _ => (Ok 2%positive, tt)
    | proxy.expire.ManifestsDelete _ _ => fun _ => (Some ErrUnsupported, tt)
    end.

(** A read-only context, and a request whose digest parses. *)
Definition readOnlyContext : Context := {| Errors := []; readOnly := true |}.

Definition parsedDigest (ctx : Context) : result Digest := Ok "sha256:aa".

(** A reader over [abc] that has read one byte. *)
Definition abcReader : blob_test.Reader := {| blob_test.s := abc; blob_test.i := 1 |}.

End samples.

(** * Verified properties *)

(** ** The blob handlers *)

Section HandlerFacts.
Import handlers.

Context {W : Type} (h : env handlers.ans W).

(** C1.  When [Stat] answers [ErrBlobUnknown] for the requested digest,
    [GetBlob] next calls [Create] with the mount option for that digest;
    it goes on to [ServeBlob] exactly when that attempt failed with the
    [ErrBlobMounted] sentinel; after any other outcome (another error, or
    a blob writer) it issues no further call, serves nothing, and appends
    a BlobUnknown error for the digest to the context's errors. *)
Theorem GetBlob_auto_mount (w : W) (dgst : Digest) (bh : Context) :
  (h (Stat dgst) w).1 = Err ErrBlobUnknown ->
  let attempt := Create [WithMount dgst; WithoutUpload] in
  let m := (h attempt (h (Stat dgst) w).2).1 in
  let t := calls_of h (GetBlob dgst bh) w in
  take 2 t = [Stat dgst; attempt] /\
  (served t = true <-> mounted m) /\
  (mounted m -> t = [Stat dgst; attempt; ServeBlob dgst]) /\
  (~ mounted m ->
     t = [Stat dgst; attempt] /\
     served t = false /\
     result_of h (GetBlob dgst bh) w =
       appendError bh (WithDetail ErrorCodeBlobUnknown (DetailDigest dgst))).
Proof.
  intros Hstat. unfold calls_of, result_of, GetBlob. simpl.
  destruct (h (Stat dgst) w) as [r w1]. simpl in Hstat. subst r. simpl.
  destruct (h (Create [WithMount dgst; WithoutUpload]) w1) as [m w2]. simpl.
  destruct m as [bw | err]; simpl.
  - assert (Hn : ~ mounted (Ok bw)) by (intros (e & He & _); discriminate).
    split; [reflexivity |].
    split; [split; [discriminate | intros Hm; contradiction] |].
    split; [intros Hm; contradiction |].
    intros _. repeat split.
  - destruct (As_ErrBlobMounted err) as [desc |] eqn:E; simpl.
    + destruct (h (ServeBlob dgst) w2) as [s w3]. simpl.
      assert (Hm : mounted (Err err)).
      { exists err. split; [reflexivity | rewrite E; eauto]. }
      destruct s; simpl;
        (split; [reflexivity |]);
        (split; [split; [intros _; exact Hm | reflexivity] |]);
        (split; [reflexivity |]);
        intros Hn; contradiction.
    + assert (Hn : ~ mounted (Err err)).
      { intros (e & He & Hs). injection He as <-. rewrite E in Hs.
        destruct Hs as [? ?]. discriminate. }
      split; [reflexivity |].
      split; [split; [discriminate | intros Hm; contradiction] |].
      split; [intros Hm; contradiction |].
      intros _. repeat split.
Qed.

End HandlerFacts.

Section DispatcherFacts.
Import handlers.

Variable getDigest : Context -> result Digest.



End DispatcherFacts.

(** ** Running programs *)

Section ProgFacts.
Context {call : Type} {ans : call -> Type}.

Lemma run_bind {W A B : Type} (h : env ans W) (p : prog ans A) (f : A -> prog ans B) (w : W) :
  run h (bind p f) w =
  let '(a, w1, t1) := run h p w in
  let '(b, w2, t2) := run h (f a) w1 in
  (b, w2, t1 ++ t2).
Proof.
  revert w. induction p as [a | c k IH]; intros w; simpl.
  - destruct (run h (f a) w) as [[b w2] t2]. reflexivity.
  - destruct (h c w) as [x w1]. rewrite IH.
    destruct (run h (k x) w1) as [[a w2] t1].
    destruct (run h (f a) w2) as [[b w3] t2]. reflexivity.
Qed.
End ProgFacts.

(** ** The descriptor service: [setPublic] and the startup scan *)

Section ScanFacts.
Import proxy.
Lemma run_setPublic_mem (m : gmap Digest Descriptor) (dgst : Digest) :
  run memDescriptorService (setPublic dgst) m =
  match Annotations (cached m dgst) !! "public" with
  | Some _ => ((false, None), m, [ds.Stat dgst])
  | None =>
      ((true, None), <[dgst := marked (cached m dgst)]> m,
       [ds.Stat dgst; ds.SetDescriptor dgst (marked (cached m dgst))])
  end.
Proof.
  unfold setPublic, cached. simpl.
  destruct (m !! dgst) as [desc |] eqn:E; simpl.
  - destruct (Annotations desc !! "public"); reflexivity.
  - reflexivity.
Qed.

Lemma run_scanIngester_mem (m : gmap Digest Descriptor) (a b : nat) (dgst : Digest) :
  exists b' t,
    run memDescriptorService (scanIngester (a, b) dgst) m =
    (((S a, b'), None), markedCache dgst m, t) /\
    statDigests t = [dgst].
Proof.
  unfold scanIngester, markedCache. rewrite run_bind, run_setPublic_mem.
  destruct (Annotations (cached m dgst) !! "public"); simpl;
    eexists _, _; split; reflexivity.
Qed.

Lemma run_Enumerate_mem (blobs : list Digest) :
  forall (m : gmap Digest Descriptor) (a b : nat),
  exists b' t,
    run memDescriptorService (Enumerate blobs scanIngester (a, b)) m =
    ((((a + length blobs)%nat, b'), None), scannedCache blobs m, t) /\
    statDigests t = blobs.
Proof.
  induction blobs as [| dgst rest IH]; intros m a b.
  - exists b, []. simpl. rewrite Nat.add_0_r. split; reflexivity.
  - cbn [Enumerate]. rewrite run_bind.
    destruct (run_scanIngester_mem m a b dgst) as (b1 & t1 & -> & Ht1).
    cbn [fst snd].
    destruct (IH (markedCache dgst m) (S a) b1) as (b2 & t2 & -> & Ht2).
    exists b2, (t1 ++ t2). simpl. rewrite Nat.add_succ_r. split; [reflexivity |].
    unfold statDigests in *. rewrite omap_app, Ht1, Ht2. reflexivity.
Qed.

Lemma state_setBlobsPublic_mem (blobs : list Digest) (m : gmap Digest Descriptor) :
  state_of memDescriptorService (setBlobsPublic blobs) m = scannedCache blobs m /\
  (result_of memDescriptorService (setBlobsPublic blobs) m).1 = length blobs /\
  statDigests (calls_of memDescriptorService (setBlobsPublic blobs) m) = blobs.
Proof.
  unfold state_of, result_of, calls_of, setBlobsPublic. rewrite run_bind.
  destruct (run_Enumerate_mem blobs m 0 0) as (b & t & -> & Ht). simpl.
  rewrite app_nil_r. auto.
Qed.

Lemma markedCache_annotated (dgst d : Digest) (m : gmap Digest Descriptor) (desc : Descriptor) :
  m !! d = Some desc -> is_Some (Annotations desc !! "public") ->
  markedCache dgst m !! d = Some desc.
Proof.
  intros Hd [v Hv]. unfold markedCache, cached.
  destruct (decide (dgst = d)) as [-> | Hne].
  - rewrite Hd. simpl. rewrite Hv. exact Hd.
  - destruct (Annotations (default zeroDescriptor (m !! dgst)) !! "public");
      [exact Hd | rewrite lookup_insert_ne; auto].
Qed.

Lemma markedCache_other (dgst d : Digest) (m : gmap Digest Descriptor) :
  dgst <> d -> markedCache dgst m !! d = m !! d.
Proof.
  intros Hne. unfold markedCache.
  destruct (Annotations (cached m dgst) !! "public"); [reflexivity |].
  rewrite lookup_insert_ne; auto.
Qed.

Lemma scannedCache_annotated (blobs : list Digest) :
  forall (m : gmap Digest Descriptor) (d : Digest) (desc : Descriptor),
    m !! d = Some desc -> is_Some (Annotations desc !! "public") ->
    scannedCache blobs m !! d = Some desc.
Proof.
  induction blobs as [| dgst rest IH]; intros m d desc Hd Hp; simpl.
  - exact Hd.
  - apply IH; [| exact Hp]. apply markedCache_annotated; assumption.
Qed.

Lemma scannedCache_unannotated (blobs : list Digest) :
  forall (m : gmap Digest Descriptor) (d : Digest),
    d ∈ blobs -> Annotations (cached m d) !! "public" = None ->
    scannedCache blobs m !! d = Some (marked (cached m d)).
Proof.
  induction blobs as [| dgst rest IH]; intros m d Hin Hn.
  - inversion Hin.
  - simpl. destruct (decide (dgst = d)) as [-> | Hne].
    + apply scannedCache_annotated.
      * unfold markedCache. rewrite Hn. apply lookup_insert_eq.
      * simpl. rewrite lookup_singleton_eq. eauto.
    + assert (Hc : cached (markedCache dgst m) d = cached m d).
      { unfold cached. rewrite markedCache_other by assumption. reflexivity. }
      rewrite <- Hc. apply IH.
      * apply elem_of_cons in Hin as [-> | Hin]; [congruence | exact Hin].
      * rewrite Hc. exact Hn.
Qed.

Lemma scannedCache_elsewhere (blobs : list Digest) :
  forall (m : gmap Digest Descriptor) (d : Digest),
    d ∉ blobs -> scannedCache blobs m !! d = m !! d.
Proof.
  induction blobs as [| dgst rest IH]; intros m d Hnin; simpl.
  - reflexivity.
  - apply not_elem_of_cons in Hnin as [Hne Hnin].
    rewrite IH by assumption. apply markedCache_other. congruence.
Qed.

(** What [setPublic] does on any descriptor service, by the answers it
    gets. *)
Lemma run_setPublic {W : Type} (h : env ds.ans W) (w : W) (dgst : Digest) :
  let stat := h (ds.Stat dgst) w in
  let store desc :=
    let set := h (ds.SetDescriptor dgst (marked desc)) stat.2 in
    run h (setPublic dgst) w =
    ((match set.1 with None => true | Some _ => false end, set.1), set.2,
     [ds.Stat dgst; ds.SetDescriptor dgst (marked desc)]) in
  match stat.1 with
  | Ok desc =>
      match Annotations desc !! "public" with
      | Some _ => run h (setPublic dgst) w = ((false, None), stat.2, [ds.Stat dgst])
      | None => store desc
      end
  | Err err =>
      if decide (err = ErrBlobUnknown) then store zeroDescriptor
      else run h (setPublic dgst) w = ((false, Some err), stat.2, [ds.Stat dgst])
  end.
Proof.
  unfold setPublic, marked. simpl.
  destruct (h (ds.Stat dgst) w) as [r w1]. destruct r as [desc | err]; simpl.
  - destruct (Annotations desc !! "public"); simpl; [reflexivity |].
    destruct (h (ds.SetDescriptor dgst (withAnnotations desc {[ "public" := "true" ]})) w1)
      as [e2 w2].
    destruct e2; reflexivity.
  - destruct (decide (err = ErrBlobUnknown)); simpl; [| reflexivity].
    rewrite lookup_empty. simpl.
    destruct (h (ds.SetDescriptor dgst
                   (withAnnotations zeroDescriptor {[ "public" := "true" ]})) w1)
      as [e2 w2].
    destruct e2; reflexivity.
Qed.

(** C10.  On any descriptor service: when [Stat] gives a descriptor with
    an annotation under the key public, [setPublic] returns false without
    error and issues no [SetDescriptor]; when it gives a descriptor
    without one, or [ErrBlobUnknown], [setPublic] stores that descriptor
    (the zero descriptor when unknown) with its annotations replaced by
    exactly [public=true].  On the in-memory descriptor service the cache
    is then unchanged in the first case and updated under the digest in
    the second, and in both cases a second call right after returns
    false, writes nothing and leaves the cache as the first call left
    it. *)
Theorem setPublic_idempotent :
  (forall (W : Type) (h : env ds.ans W) (w : W) (dgst : Digest),
     let stat := h (ds.Stat dgst) w in
     let store desc :=
       let set := h (ds.SetDescriptor dgst (marked desc)) stat.2 in
       Annotations (marked desc) = {[ "public" := "true" ]} /\
       run h (setPublic dgst) w =
       ((match set.1 with None => true | Some _ => false end, set.1), set.2,
        [ds.Stat dgst; ds.SetDescriptor dgst (marked desc)]) in
     match stat.1 with
     | Ok desc =>
         match Annotations desc !! "public" with
         | Some _ => run h (setPublic dgst) w = ((false, None), stat.2, [ds.Stat dgst])
         | None => store desc
         end
     | Err err =>
         if decide (err = ErrBlobUnknown) then store zeroDescriptor
         else run h (setPublic dgst) w = ((false, Some err), stat.2, [ds.Stat dgst])
     end) /\
  (forall (m : gmap Digest Descriptor) (dgst : Digest),
     let first := run memDescriptorService (setPublic dgst) m in
     let m1 := first.1.2 in
     match Annotations (cached m dgst) !! "public" with
     | Some _ => first = ((false, None), m, [ds.Stat dgst])
     | None =>
         first = ((true, None), <[dgst := marked (cached m dgst)]> m,
                  [ds.Stat dgst; ds.SetDescriptor dgst (marked (cached m dgst))]) /\
         Annotations (marked (cached m dgst)) = {[ "public" := "true" ]}
     end /\
     run memDescriptorService (setPublic dgst) m1 = ((false, None), m1, [ds.Stat dgst])).
Proof.
  split.
  - intros W h w dgst. pose proof (run_setPublic h w dgst) as H. cbv zeta in *.
    destruct (h (ds.Stat dgst) w).1 as [desc | err].
    + destruct (Annotations desc !! "public"); [exact H | split; [reflexivity | exact H]].
    + destruct (decide (err = ErrBlobUnknown)); [split; [reflexivity | exact H] | exact H].
  - intros m dgst first m1. subst m1 first. rewrite run_setPublic_mem.
    destruct (Annotations (cached m dgst) !! "public") as [v |] eqn:E; cbn [fst snd].
    + split; [reflexivity |]. rewrite run_setPublic_mem, E. reflexivity.
    + split; [split; reflexivity |]. rewrite run_setPublic_mem.
      unfold cached at 1. rewrite lookup_insert_eq. reflexivity.
Qed.
End ScanFacts.

(** ** Startup of the proxied registry *)

Section StartupFacts.
Import proxy.

Tactic Notation "answer" constr(h) "as" simple_intropattern(pat) :=
  match goal with
  | |- context [h ?c ?w] => destruct (h c w) as pat; simpl
  end.

(** The constructor starts the scan exactly when it succeeds, as its
    last call, after the call that starts the scheduler it gives to the
    registry; a failing constructor starts no scan. *)
Lemma NewRegistryPullThroughCache_scan {W : Type} (h : env startup.ans W) (w : W)
    (registry driver : loc) (config : Proxy) (ds : loc) :
  let t := calls_of h (NewRegistryPullThroughCache registry driver config ds) w in
  match result_of h (NewRegistryPullThroughCache registry driver config ds) w with
  | Ok p =>
      embedded p = registry /\ descriptorService p = ds /\
      exists pre mid,
        t = pre ++ [startup.Start (scheduler p)] ++ mid ++ [startup.goSetBlobsPublic p] /\
        existsb startup.isGo (pre ++ [startup.Start (scheduler p)] ++ mid) = false
  | Err _ => existsb startup.isGo t = false
  end.
Proof.
  unfold calls_of, result_of, NewRegistryPullThroughCache. simpl.
  answer h as [[remoteURL | err] w1]; [| reflexivity].
  answer h as [v w2]. answer h as [s w3].
  answer h as [[] w4]. answer h as [[] w5].
  answer h as [[err |] w6]; [reflexivity |].
  answer h as [[cs | err] w7]; [| reflexivity].
  answer h as [cm w8]. answer h as [[] w9].
  split; [reflexivity |]. split; [reflexivity |].
  eexists [_; _; _; _; _], [_; _]. split; reflexivity.
Qed.

(** C2, as the code has it.  The constructor launches the scan once,
    after the scheduler was started, and only when it succeeds.  Run on
    the in-memory descriptor service, the scan goes through every blob
    of the embedded namespace, asking the descriptor service about each
    in enumeration order: a blob whose cached descriptor has no
    annotation under the key public ends with [public=true]; a blob that
    already has such an annotation keeps its descriptor as it was;
    digests that were not enumerated are not touched; and the first
    counter is the number of blobs. *)
Theorem startup_scan_marks_unannotated :
  (forall (W : Type) (h : env startup.ans W) (w : W)
          (registry driver : loc) (config : Proxy) (ds : loc),
     let t := calls_of h (NewRegistryPullThroughCache registry driver config ds) w in
     match result_of h (NewRegistryPullThroughCache registry driver config ds) w with
     | Ok p =>
         embedded p = registry /\ descriptorService p = ds /\
         exists pre mid,
           t = pre ++ [startup.Start (scheduler p)] ++ mid ++ [startup.goSetBlobsPublic p] /\
           existsb startup.isGo (pre ++ [startup.Start (scheduler p)] ++ mid) = false
     | Err _ => existsb startup.isGo t = false
     end) /\
  (forall (m : gmap Digest Descriptor) (blobs : list Digest),
     let m' := state_of memDescriptorService (setBlobsPublic blobs) m in
     Forall (fun dgst =>
               match Annotations (cached m dgst) !! "public" with
               | None => m' !! dgst = Some (marked (cached m dgst)) /\ isPublic m' dgst
               | Some _ => m' !! dgst = m !! dgst
               end) blobs /\
     (forall dgst, dgst ∉ blobs -> m' !! dgst = m !! dgst) /\
     statDigests (calls_of memDescriptorService (setBlobsPublic blobs) m) = blobs /\
     (result_of memDescriptorService (setBlobsPublic blobs) m).1 = length blobs).
Proof.
  split; [intros; apply NewRegistryPullThroughCache_scan |].
  intros m blobs m'. subst m'.
  destruct (state_setBlobsPublic_mem blobs m) as (-> & Hcount & Hcalls).
  split; [| split; [| split; [exact Hcalls | exact Hcount]]].
  - apply Forall_forall. intros dgst Hin.
    destruct (Annotations (cached m dgst) !! "public") as [v |] eqn:E.
    + unfold cached in E. destruct (m !! dgst) as [desc |] eqn:Hd; simpl in E.
      * apply scannedCache_annotated; [exact Hd | rewrite E; eauto].
      * rewrite lookup_empty in E. discriminate.
    + pose proof (scannedCache_unannotated blobs m dgst Hin E) as Hm.
      split; [exact Hm |]. eexists. split; [exact Hm |].
      simpl. apply lookup_singleton_eq.
  - intros dgst Hnin. apply scannedCache_elsewhere. exact Hnin.
Qed.

(** A blob whose cached descriptor carries [public=false] is enumerated
    by the scan and is not marked [public=true]. *)
Lemma scan_keeps_other_annotation :
  let dgst := "sha256:aa" in
  let desc := {| MediaType := "application/octet-stream"; Size := 3;
                 dDigest := dgst; Annotations := {[ "public" := "false" ]} |} in
  let m : gmap Digest Descriptor := {[ dgst := desc ]} in
  dgst ∈ [dgst] /\
  ~ isPublic (state_of memDescriptorService (setBlobsPublic [dgst]) m) dgst.
Proof.
  simpl. split; [apply list_elem_of_here |].
  intros (desc & Hl & Hp).
  vm_compute in Hl. injection Hl as <-. vm_compute in Hp. discriminate.
Qed.
End StartupFacts.

(** ** The remote auth challenger *)

Section ChallengerFacts.
Import proxy.

Variable challengeHeader : string.
Context {W : Type} (h : env challenger.ans W).

(** C3.  [tryEstablishChallenges] asks the challenge manager for the
    challenges of the upstream URL with path /v2/.  With a non-empty
    challenge set it returns success and the run holds no network call;
    with an empty set it pings that endpoint, and it returns what the
    ping returns: its error unchanged, or success.  An error of the
    manager itself is returned without a ping.  The mutex is taken first
    and released last on every path. *)
Theorem tryEstablishChallenges_spec (w : W) (r : remoteAuthChallenger) :
  let endpoint := withPath (remoteURL r) "/v2/" in
  let run1 := run h (tryEstablishChallenges challengeHeader r) w in
  let w1 := (h challenger.Lock w).2 in
  let asked := h (challenger.GetChallenges (cm r) endpoint) w1 in
  Path endpoint = "/v2/" /\
  match asked.1 with
  | Ok (_ :: _) =>
      run1.1.1 = None /\
      run1.2 = [challenger.Lock; challenger.GetChallenges (cm r) endpoint;
                challenger.Unlock] /\
      existsb challenger.isNetwork run1.2 = false
  | Ok [] =>
      let pinged :=
        h (challenger.ping (cm r) (URL_String endpoint) challengeHeader) asked.2 in
      run1.1.1 = pinged.1 /\
      run1.2 = [challenger.Lock; challenger.GetChallenges (cm r) endpoint;
                challenger.ping (cm r) (URL_String endpoint) challengeHeader;
                challenger.Unlock]
  | Err err =>
      run1.1.1 = Some err /\
      run1.2 = [challenger.Lock; challenger.GetChallenges (cm r) endpoint;
                challenger.Unlock]
  end.
Proof.
  unfold tryEstablishChallenges. simpl.
  destruct (h challenger.Lock w) as [u w1]. simpl.
  destruct (h (challenger.GetChallenges (cm r) (withPath (remoteURL r) "/v2/")) w1)
    as [c w2]. simpl.
  split; [reflexivity |].
  destruct c as [[| ch rest] | err]; simpl.
  - destruct (h (challenger.ping (cm r) (URL_String (withPath (remoteURL r) "/v2/"))
                   challengeHeader) w2) as [e w3]. simpl.
    destruct e; simpl; destruct (h challenger.Unlock w3); simpl; split; reflexivity.
  - destruct (h challenger.Unlock w2). simpl. repeat split.
  - destruct (h challenger.Unlock w2). simpl. repeat split.
Qed.
End ChallengerFacts.

(** ** The expiry callbacks *)

Section ExpireFacts.
Import proxy.

Context {W : Type} (h : env expire.ans W).

(** The runs of the two callbacks, by the answers they get. *)
Lemma expiry_callbacks_runs (w : W) (ref : Reference) :
  match asCanonical ref with
  | None =>
      run h (onBlobExpire ref) w = (Some (unexpectedReferenceType ref), w, []) /\
      run h (onManifestExpire ref) w = (Some (unexpectedReferenceType ref), w, [])
  | Some (name, dgst) =>
      ref = canonicalReference name dgst /\
      let '(r, w1) := h (expire.Repository name) w in
      match r with
      | Err err =>
          run h (onBlobExpire ref) w = (Some err, w1, [expire.Repository name]) /\
          run h (onManifestExpire ref) w = (Some err, w1, [expire.Repository name])
      | Ok repo =>
          (let '(d, w2) := h (expire.BlobsDelete repo dgst) w1 in
           match d with
           | Some err =>
               run h (onBlobExpire ref) w =
               (Some err, w2, [expire.Repository name; expire.BlobsDelete repo dgst])
           | None =>
               let '(v, w3) := h (expire.RemoveBlob dgst) w2 in
               run h (onBlobExpire ref) w =
               (v, w3, [expire.Repository name; expire.BlobsDelete repo dgst;
                        expire.RemoveBlob dgst])
           end) /\
          (let '(ms, w2) := h (expire.Manifests repo) w1 in
           match ms with
           | Err err =>
               run h (onManifestExpire ref) w =
               (Some err, w2, [expire.Repository name; expire.Manifests repo])
           | Ok manifests =>
               let '(d, w3) := h (expire.ManifestsDelete manifests dgst) w2 in
               run h (onManifestExpire ref) w =
               (d, w3, [expire.Repository name; expire.Manifests repo;
                        expire.ManifestsDelete manifests dgst])
           end)
      end
  end.
Proof.
  destruct ref as [name dgst | name tag | name]; simpl; try (split; reflexivity).
  split; [reflexivity |].
  destruct (h (expire.Repository name) w) as [r w1].
  destruct r as [repo | err]; simpl; [| split; reflexivity].
  split.
  - destruct (h (expire.BlobsDelete repo dgst) w1) as [d w2].
    destruct d as [err |]; simpl; [reflexivity |].
    destruct (h (expire.RemoveBlob dgst) w2) as [v w3].
    destruct v; reflexivity.
  - destruct (h (expire.Manifests repo) w1) as [ms w2].
    destruct ms as [manifests | err]; simpl; [| reflexivity].
    destruct (h (expire.ManifestsDelete manifests dgst) w2) as [d w3].
    destruct d; reflexivity.
Qed.
End ExpireFacts.

Section ExpireModelFacts.
Import proxy storage localnamespace.

Lemma nameOf_repositoryOf (name : string) : nameOf (repositoryOf name) = Some name.
Proof. apply decode_encode. Qed.

Lemma name_of_handle (name : string) : strings.pos_to_string (repositoryOf name) = name.
Proof.
  pose proof (nameOf_repositoryOf name) as H. unfold nameOf in H. simpl in H.
  injection H as H. exact H.
Qed.

Lemma run_onBlobExpire_local (ns : Namespace) (name : string) (dgst : Digest) :
  run expiryStore (onBlobExpire (canonicalReference name dgst)) ns =
  let '(ns1, e1) := deleteBlob name dgst ns in
  match e1 with
  | Some err =>
      (Some err, ns1,
       [expire.Repository name; expire.BlobsDelete (repositoryOf name) dgst])
  | None =>
      let '(ns2, e2) := removeBlob dgst ns1 in
      (e2, ns2, [expire.Repository name; expire.BlobsDelete (repositoryOf name) dgst;
                 expire.RemoveBlob dgst])
  end.
Proof.
  unfold onBlobExpire. simpl. rewrite name_of_handle.
  destruct (deleteBlob name dgst ns) as [ns1 [err |]]; simpl; [reflexivity |].
  destruct (removeBlob dgst ns1) as [ns2 [err |]]; reflexivity.
Qed.

Lemma run_onManifestExpire_local (ns : Namespace) (name : string) (dgst : Digest) :
  run expiryStore (onManifestExpire (canonicalReference name dgst)) ns =
  let '(ns1, e1) := deleteManifest name dgst ns in
  (e1, ns1, [expire.Repository name; expire.Manifests (repositoryOf name);
             expire.ManifestsDelete (repositoryOf name) dgst]).
Proof.
  unfold onManifestExpire. simpl. rewrite name_of_handle.
  destruct (deleteManifest name dgst ns) as [ns1 [err |]]; reflexivity.
Qed.

(** C4, as the code has it.  For a reference that is not canonical,
    either callback returns the unexpected-reference-type error and
    issues no call at all.  For a canonical reference (name, digest) the
    blob callback asks the registry for the repository of that name,
    deletes the digest from its blob store and, only when that
    succeeded, removes the blob of that digest through the vacuum; the
    manifest callback asks for the repository and its manifest service
    and deletes the digest there.  An error of any of these calls ends
    the callback, is its result, and the later calls are not made.  On
    the local namespace: with deletion enabled and the blob linked into
    the repository, the blob callback leaves the blob unknown to the
    repository, no entry for the digest in the descriptor cache and no
    bytes for it in the backing storage; with deletion not enabled, or
    the blob not linked, it returns the store's error and leaves the
    namespace, the backing storage included, as it was.  The manifest
    callback removes the repository's link to the manifest, or returns
    the store's error and leaves the namespace as it was. *)
Theorem expiry_callbacks_spec :
  (forall (W : Type) (h : env expire.ans W) (w : W) (ref : Reference),
     match asCanonical ref with
     | None =>
         run h (onBlobExpire ref) w = (Some (unexpectedReferenceType ref), w, []) /\
         run h (onManifestExpire ref) w = (Some (unexpectedReferenceType ref), w, [])
     | Some (name, dgst) =>
         ref = canonicalReference name dgst /\
         let '(r, w1) := h (expire.Repository name) w in
         match r with
         | Err err =>
             run h (onBlobExpire ref) w = (Some err, w1, [expire.Repository name]) /\
             run h (onManifestExpire ref) w = (Some err, w1, [expire.Repository name])
         | Ok repo =>
             (let '(d, w2) := h (expire.BlobsDelete repo dgst) w1 in
              match d with
              | Some err =>
                  run h (onBlobExpire ref) w =
                  (Some err, w2, [expire.Repository name; expire.BlobsDelete repo dgst])
              | None =>
                  let '(v, w3) := h (expire.RemoveBlob dgst) w2 in
                  run h (onBlobExpire ref) w =
                  (v, w3, [expire.Repository name; expire.BlobsDelete repo dgst;
                           expire.RemoveBlob dgst])
              end) /\
             (let '(ms, w2) := h (expire.Manifests repo) w1 in
              match ms with
              | Err err =>
                  run h (onManifestExpire ref) w =
                  (Some err, w2, [expire.Repository name; expire.Manifests repo])
              | Ok manifests =>
                  let '(d, w3) := h (expire.ManifestsDelete manifests dgst) w2 in
                  run h (onManifestExpire ref) w =
                  (d, w3, [expire.Repository name; expire.Manifests repo;
                           expire.ManifestsDelete manifests dgst])
              end)
         end
     end) /\
  (forall (ns : Namespace) (name : string) (dgst : Digest),
     let out := run expiryStore (onBlobExpire (canonicalReference name dgst)) ns in
     let lookup := [expire.Repository name; expire.BlobsDelete (repositoryOf name) dgst] in
     if deleteEnabled (registry ns) then
       if decide ((name, dgst) ∈ links (registry ns)) then
         out.2 = lookup ++ [expire.RemoveBlob dgst] /\
         Stat name dgst (registry out.1.2) = Err ErrBlobUnknown /\
         descriptorCache (registry out.1.2) !! dgst = None /\
         blobs (registry out.1.2) !! dgst = None /\
         manifests out.1.2 = manifests ns /\
         out.1.1 = match blobs (registry ns) !! dgst with
                   | Some _ => None
                   | None => Some errPathNotFound
                   end
       else out = (Some ErrBlobUnknown, ns, lookup)
     else out = (Some ErrUnsupported, ns, lookup)) /\
  (forall (ns : Namespace) (name : string) (dgst : Digest),
     let out := run expiryStore (onManifestExpire (canonicalReference name dgst)) ns in
     let calls := [expire.Repository name; expire.Manifests (repositoryOf name);
                   expire.ManifestsDelete (repositoryOf name) dgst] in
     if deleteEnabled (registry ns) then
       out = (None, {| registry := registry ns;
                       manifests := manifests ns ∖ {[ (name, dgst) ]} |}, calls)
     else out = (Some ErrUnsupported, ns, calls)).
Proof.
  split; [intros W h w ref; apply expiry_callbacks_runs |]. split.
  - intros ns name dgst out lookup. subst out lookup.
    rewrite run_onBlobExpire_local. unfold deleteBlob, Delete.
    destruct (deleteEnabled (registry ns)) eqn:Hen; [| reflexivity].
    destruct (decide ((name, dgst) ∈ links (registry ns))) as [Hin | Hnin]; [| reflexivity].
    unfold removeBlob. simpl.
    destruct (blobs (registry ns) !! dgst) as [p |] eqn:Hb; simpl.
    + split; [reflexivity |].
      split; [unfold Stat; simpl; rewrite decide_False by set_solver; reflexivity |].
      split; [apply lookup_delete_eq |]. split; [apply lookup_delete_eq |].
      split; reflexivity.
    + split; [reflexivity |].
      split; [unfold Stat; simpl; rewrite decide_False by set_solver; reflexivity |].
      split; [apply lookup_delete_eq |]. split; [exact Hb |].
      split; reflexivity.
  - intros ns name dgst out calls. subst out calls.
    rewrite run_onManifestExpire_local. unfold deleteManifest.
    destruct (deleteEnabled (registry ns)); reflexivity.
Qed.

(** A blob store that refuses the deletion: the blob callback, given a
    canonical reference, returns the store's error and never reaches the
    vacuum, so the blob stays in the backing storage. *)
Lemma expiry_blob_delete_refused :
  let ref := canonicalReference "library/alpine" "sha256:aa" in
  asCanonical ref = Some ("library/alpine", "sha256:aa") /\
  run samples.refusingStore (onBlobExpire ref) tt =
    (Some ErrUnsupported, tt,
     [expire.Repository "library/alpine"; expire.BlobsDelete 1%positive "sha256:aa"]) /\
  ~ In (expire.RemoveBlob "sha256:aa")
       (calls_of samples.refusingStore (onBlobExpire ref) tt).
Proof.
  simpl. split; [reflexivity |]. split; [reflexivity |].
  intros [H | [H | []]]; discriminate.
Qed.

End ExpireModelFacts.

(** ** [proxyingRegistry.Repository] *)

Section RepositoryFacts.
Import proxy.

(** C7, as the code has it.  Every upstream repository client that
    [Repository] creates gets the transport whose only token handler has
    the single scope (repository name, pull) and uses the shared
    challenger's challenge manager and credential store.  When
    [Repository] succeeds it has created that client, the blob service
    and the manifest service are wired to the registry's scheduler and
    auth challenger, and the tag service is wired to the auth challenger
    alone. *)
Theorem Repository_wiring {W : Type} (h : env repo.ans W) (w : W)
    (pr : proxyingRegistry) (name : string) :
  let t := calls_of h (Repository pr name) w in
  transportScopes (pullTransport pr name) = [RepositoryScope name ["pull"]] /\
  Forall (fun c => isNewRepository c = true ->
                   c = repo.NewRepository name (URL_String (pr_remoteURL pr))
                         (pullTransport pr name)) t /\
  match result_of h (Repository pr name) w with
  | Ok r =>
      repo.NewRepository name (URL_String (pr_remoteURL pr)) (pullTransport pr name) ∈ t /\
      proxiedRepository.name r = name /\
      blobStoreWires (proxiedRepository.blobStore r) =
        [toScheduler (scheduler pr); toAuthChallenger (authChallenger pr)] /\
      manifestsWires (proxiedRepository.manifests r) =
        [toScheduler (scheduler pr); toAuthChallenger (authChallenger pr)] /\
      tagsWires (proxiedRepository.tags r) = [toAuthChallenger (authChallenger pr)]
  | Err _ => True
  end.
Proof.
  unfold calls_of, result_of, Repository, pullTransport. simpl.
  split; [reflexivity |].
  destruct (h (repo.embeddedRepository (embedded pr) name) w) as [l w1].
  destruct l as [localRepo | err]; simpl.
  2: { split; [| exact I]. repeat constructor; discriminate. }
  destruct (h (repo.localManifests localRepo [SkipLayerVerification]) w1) as [lm w2].
  destruct lm as [localManifests | err]; simpl.
  2: { split; [| exact I]. repeat constructor; discriminate. }
  match goal with
  | |- context [h ?c w2] => destruct (h c w2) as [rr w3]
  end.
  destruct rr as [remoteRepo | err]; simpl.
  2: { split; [| exact I]. repeat constructor; try discriminate. }
  destruct (h (repo.remoteManifests remoteRepo) w3) as [rm w4].
  destruct rm as [remoteManifests | err]; simpl.
  2: { split; [| exact I]. repeat constructor; try discriminate. }
  split; [repeat constructor; try discriminate |].
  split; [set_solver |]. repeat split.
Qed.

(** With every collaborator answering, the tag service that [Repository]
    builds is not wired to the registry's scheduler. *)
Lemma Repository_tags_without_scheduler :
  let pr := {| embedded := 1%positive; scheduler := 2%positive;
               pr_remoteURL := {| Scheme := "https"; Host := "registry-1.docker.io"; Path := "" |};
               authChallenger :=
                 {| remoteURL := {| Scheme := "https"; Host := "registry-1.docker.io"; Path := "" |};
                    cm := 3%positive; cs := 4%positive |};
               descriptorService := 5%positive |} in
  match result_of freshRepoEnv (Repository pr "library/alpine") 10%positive with
  | Ok r => toScheduler (scheduler pr) ∉ tagsWires (proxiedRepository.tags r)
  | Err _ => False
  end.
Proof.
  simpl. intros Hin. apply list_elem_of_In in Hin. simpl in Hin.
  destruct Hin as [Heq | []]. discriminate.
Qed.
End RepositoryFacts.

(** ** The local blob store *)

Section LinkFacts.
Import storage.

Lemma Copy_written (chunks : list (list byte)) :
  forall w : blobWriter,
    Copy chunks w =
    ({| repository := repository w; written := written w ++ concat chunks |},
     Z.of_nat (length (concat chunks))).
Proof.
  induction chunks as [| p rest IH]; intros w; simpl.
  - rewrite app_nil_r. destruct w; reflexivity.
  - rewrite IH. simpl. rewrite <- app_assoc, length_app, Nat2Z.inj_add. reflexivity.
Qed.

Lemma Stat_link_same (repo : string) (dgst : Digest) (reg : Registry) (p : list byte) :
  blobs reg !! dgst = Some p ->
  Stat repo dgst (link repo dgst reg) = Ok (canonical dgst p).
Proof.
  intros Hb. unfold Stat, link. simpl.
  rewrite decide_True by set_solver. rewrite Hb. reflexivity.
Qed.

Lemma Stat_Ok (repo : string) (dgst : Digest) (reg : Registry) (D : Descriptor) :
  Stat repo dgst reg = Ok D ->
  (repo, dgst) ∈ links reg /\
  exists p, blobs reg !! dgst = Some p /\ D = canonical dgst p.
Proof.
  unfold Stat. intros H.
  destruct (decide ((repo, dgst) ∈ links reg)) as [Hin | Hnin]; [| discriminate].
  destruct (blobs reg !! dgst) as [p |]; [| discriminate].
  injection H as <-. eauto.
Qed.

Lemma Open_Stat (repo : string) (dgst : Digest) (reg : Registry) (p : list byte) :
  Stat repo dgst reg = Ok (canonical dgst p) -> blobs reg !! dgst = Some p ->
  Open repo dgst reg = Ok p.
Proof. intros Hs Hb. unfold Open. rewrite Hs, Hb. reflexivity. Qed.

Lemma mountable_public (dgst : Digest) (reg : Registry) (p : list byte) :
  proxy.isPublic (descriptorCache reg) dgst -> blobs reg !! dgst = Some p ->
  mountable dgst reg = Some (canonical dgst p).
Proof.
  intros (cachedDesc & Hc & Hp) Hb. unfold mountable.
  rewrite Hc, decide_True by exact Hp. rewrite Hb. reflexivity.
Qed.

(** C8.  With deletion enabled, after a public blob of repository A has
    been mounted into another repository R, deleting it from A succeeds
    and leaves it in R ([Stat] in R still gives its descriptor, [Stat] in
    A gives [ErrBlobUnknown]); deleting it from R as well then makes
    [Stat] in R give [ErrBlobUnknown]. *)
Theorem mounted_blob_outlives_source (reg : Registry) (A R : string) (dgst : Digest)
    (D : Descriptor) :
  A <> R ->
  deleteEnabled reg = true ->
  Stat A dgst reg = Ok D ->
  proxy.isPublic (descriptorCache reg) dgst ->
  let mount := Create R (Some dgst) reg in
  let afterA := Delete A dgst mount.1 in
  let afterR := Delete R dgst afterA.1 in
  mount.2 = Err (ErrBlobMounted D) /\
  afterA.2 = None /\
  Stat R dgst afterA.1 = Ok D /\
  Stat A dgst afterA.1 = Err ErrBlobUnknown /\
  afterR.2 = None /\
  Stat R dgst afterR.1 = Err ErrBlobUnknown.
Proof.
  intros Hne Hdel Hstat Hpub.
  destruct (Stat_Ok A dgst reg D Hstat) as (Hin & B & Hb & ->).
  intros mount afterA afterR.
  assert (Hm : mount = (link R dgst reg, Err (ErrBlobMounted (canonical dgst B)))).
  { unfold mount, Create. rewrite (mountable_public dgst reg B Hpub Hb). reflexivity. }
  assert (HA : afterA = (unlink A dgst (link R dgst reg), None)).
  { unfold afterA. rewrite Hm. unfold Delete. simpl. rewrite Hdel.
    rewrite decide_True by set_solver. reflexivity. }
  assert (HR : afterR = (unlink R dgst (unlink A dgst (link R dgst reg)), None)).
  { unfold afterR. rewrite HA. unfold Delete. simpl. rewrite Hdel.
    rewrite decide_True; [reflexivity |].
    apply elem_of_difference. split; [set_solver |].
    intros Heq%elem_of_singleton. congruence. }
  rewrite Hm, HA, HR. simpl.
  split; [reflexivity |]. split; [reflexivity |].
  split.
  { unfold Stat. simpl. rewrite decide_True.
    - rewrite Hb. reflexivity.
    - apply elem_of_difference. split; [set_solver |].
      intros Heq%elem_of_singleton. congruence. }
  split.
  { unfold Stat. simpl. rewrite decide_False by set_solver. reflexivity. }
  split; [reflexivity |].
  unfold Stat. simpl. rewrite decide_False by set_solver. reflexivity.
Qed.
End LinkFacts.

Section StorageFacts.
Import storage.

Variable FromBytes : list byte -> Digest.

(** The store stays content-addressed. *)
Lemma contentAddressed_NewRegistry (deleteEnabled : bool) :
  contentAddressed FromBytes (NewRegistry deleteEnabled).
Proof. intros dgst p H. simpl in H. rewrite lookup_empty in H. discriminate. Qed.

Lemma contentAddressed_Commit (w : blobWriter) (provided : Descriptor) (reg : Registry) :
  contentAddressed FromBytes reg ->
  contentAddressed FromBytes (Commit FromBytes w provided reg).1.
Proof.
  intros Hca. unfold Commit.
  destruct (decide (dDigest provided = FromBytes (written w))); simpl; [| exact Hca].
  intros dgst p. simpl. rewrite lookup_insert.
  destruct (decide (FromBytes (written w) = dgst)) as [<- | Hne].
  - intros [= <-]. reflexivity.
  - apply Hca.
Qed.

Lemma contentAddressed_Create (repo : string) (mount : option Digest) (reg : Registry) :
  contentAddressed FromBytes reg ->
  contentAddressed FromBytes (Create repo mount reg).1.
Proof.
  intros Hca. unfold Create.
  destruct mount as [dgst |]; [| exact Hca].
  destruct (mountable dgst reg); exact Hca.
Qed.

Lemma contentAddressed_Delete (repo : string) (dgst : Digest) (reg : Registry) :
  contentAddressed FromBytes reg ->
  contentAddressed FromBytes (Delete repo dgst reg).1.
Proof.
  intros Hca. unfold Delete.
  destruct (deleteEnabled reg); [| exact Hca].
  destruct (decide ((repo, dgst) ∈ links reg)); exact Hca.
Qed.

Lemma contentAddressed_markPublic (dgst : Digest) (reg : Registry) :
  contentAddressed FromBytes reg ->
  contentAddressed FromBytes (markPublic dgst reg).
Proof. intros Hca. exact Hca. Qed.

(** C6.  Creating an upload, copying the bytes in (in any number of
    writes) and committing with the digest of the bytes yields a
    descriptor with that digest and the length of the bytes as size;
    [Open] of the descriptor's digest on the same blob store then
    returns exactly the bytes. *)
Theorem upload_commit_open (reg : Registry) (repo : string) (chunks : list (list byte)) :
  let B := concat chunks in
  exists (wr : blobWriter) (D : Descriptor) (reg1 : Registry),
    Create repo None reg = (reg, Ok wr) /\
    (Copy chunks wr).2 = Z.of_nat (length B) /\
    Commit FromBytes (Copy chunks wr).1
      {| MediaType := ""; Size := 0; dDigest := FromBytes B; Annotations := ∅ |}
      reg = (reg1, Ok D) /\
    dDigest D = FromBytes B /\
    Size D = Z.of_nat (length B) /\
    Stat repo (dDigest D) reg1 = Ok D /\
    Open repo (dDigest D) reg1 = Ok B.
Proof.
  intros B. eexists _, _, _. split; [reflexivity |].
  rewrite Copy_written. simpl. split; [reflexivity |].
  unfold Commit. simpl. fold B. rewrite decide_True by reflexivity.
  split; [reflexivity |]. simpl.
  split; [reflexivity |]. split; [reflexivity |].
  assert (Hs : Stat repo (FromBytes B)
                 (link repo (FromBytes B)
                    {| blobs := <[FromBytes B := B]> (blobs reg); links := links reg;
                       descriptorCache := descriptorCache reg;
                       deleteEnabled := deleteEnabled reg |}) =
               Ok (canonical (FromBytes B) B)).
  { apply Stat_link_same. simpl. apply lookup_insert_eq. }
  split; [exact Hs |].
  apply Open_Stat; [exact Hs |]. simpl. apply lookup_insert_eq.
Qed.

(** C5.  In a content-addressed registry, let a blob be readable under
    repository A with descriptor D and be marked [public=true] in the
    descriptor cache.  Then [Create] with the mount option in a
    repository R links the blob into R and fails with the
    [ErrBlobMounted] sentinel carrying D; afterwards [Stat] gives D and
    [Open] gives the same bytes under both A and R, and the digest of
    those bytes is the digest of D. *)
Theorem mount_public_blob (reg : Registry) (A R : string) (dgst : Digest) (D : Descriptor) :
  contentAddressed FromBytes reg ->
  Stat A dgst reg = Ok D ->
  proxy.isPublic (descriptorCache reg) dgst ->
  exists (reg' : Registry) (B : list byte),
    Create R (Some dgst) reg = (reg', Err (ErrBlobMounted D)) /\
    As_ErrBlobMounted (ErrBlobMounted D) = Some D /\
    Stat A dgst reg' = Ok D /\ Stat R dgst reg' = Ok D /\
    Open A dgst reg' = Ok B /\ Open R dgst reg' = Ok B /\
    FromBytes B = dDigest D /\ dDigest D = dgst.
Proof.
  intros Hca Hstat Hpub.
  destruct (Stat_Ok A dgst reg D Hstat) as (Hin & B & Hb & ->).
  exists (link R dgst reg), B.
  assert (HA : Stat A dgst (link R dgst reg) = Ok (canonical dgst B)).
  { unfold Stat, link. simpl. rewrite decide_True by set_solver.
    rewrite Hb. reflexivity. }
  assert (HR : Stat R dgst (link R dgst reg) = Ok (canonical dgst B)).
  { apply Stat_link_same. exact Hb. }
  split.
  { unfold Create. rewrite (mountable_public dgst reg B Hpub Hb). reflexivity. }
  split; [reflexivity |].
  split; [exact HA |]. split; [exact HR |].
  split; [apply Open_Stat; [exact HA | exact Hb] |].
  split; [apply Open_Stat; [exact HR | exact Hb] |].
  split; [apply Hca; exact Hb | reflexivity].
Qed.

End StorageFacts.

(** ** The properties at the sample inputs *)

Section Samples.
Import samples.

Lemma GetBlob_auto_mount_sample :
  (mountingStore (handlers.Stat "sha256:aa") tt).1 = Err ErrBlobUnknown /\
  calls_of mountingStore (handlers.GetBlob "sha256:aa" emptyContext) tt =
    [handlers.Stat "sha256:aa";
     handlers.Create [handlers.WithMount "sha256:aa"; handlers.WithoutUpload];
     handlers.ServeBlob "sha256:aa"].
Proof.
  split; [reflexivity |].
  apply (GetBlob_auto_mount mountingStore tt "sha256:aa" emptyContext eq_refl).
  exists (ErrWrap "mount" (ErrBlobMounted zeroDescriptor)).
  split; [reflexivity | exists zeroDescriptor; reflexivity].
Defined.

Lemma sourceRegistry_contentAddressed :
  storage.contentAddressed plainDigest sourceRegistry.
Proof.
  apply contentAddressed_markPublic, contentAddressed_Commit,
    contentAddressed_NewRegistry.
Qed.

Lemma sourceRegistry_public :
  proxy.isPublic (storage.descriptorCache sourceRegistry) (plainDigest abc).
Proof.
  exists (proxy.marked zeroDescriptor). split; vm_compute; reflexivity.
Qed.

Lemma mount_public_blob_sample :
  storage.Stat "foo/source" (plainDigest abc) sourceRegistry =
    Ok (storage.canonical (plainDigest abc) abc) /\
  exists reg',
    storage.Create "foo/bar" (Some (plainDigest abc)) sourceRegistry =
      (reg', Err (ErrBlobMounted (storage.canonical (plainDigest abc) abc))) /\
    storage.Open "foo/bar" (plainDigest abc) reg' =
    storage.Open "foo/source" (plainDigest abc) reg'.
Proof.
  assert (Hs : storage.Stat "foo/source" (plainDigest abc) sourceRegistry =
               Ok (storage.canonical (plainDigest abc) abc)) by (vm_compute; reflexivity).
  split; [exact Hs |].
  destruct (mount_public_blob plainDigest sourceRegistry "foo/source" "foo/bar"
              (plainDigest abc) (storage.canonical (plainDigest abc) abc)
              sourceRegistry_contentAddressed Hs sourceRegistry_public)
    as (reg' & B & Hc & _ & _ & _ & HA & HR & _).
  exists reg'. split; [exact Hc |]. rewrite HA, HR. reflexivity.
Defined.

Lemma mounted_blob_outlives_source_sample :
  let mount := storage.Create "foo/bar" (Some (plainDigest abc)) sourceRegistry in
  let afterA := storage.Delete "foo/source" (plainDigest abc) mount.1 in
  "foo/source" <> "foo/bar" /\
  storage.deleteEnabled sourceRegistry = true /\
  storage.Stat "foo/bar" (plainDigest abc) afterA.1 =
    Ok (storage.canonical (plainDigest abc) abc) /\
  storage.Stat "foo/source" (plainDigest abc) afterA.1 = Err ErrBlobUnknown.
Proof.
  assert (Hne : "foo/source" <> "foo/bar") by discriminate.
  assert (Hs : storage.Stat "foo/source" (plainDigest abc) sourceRegistry =
               Ok (storage.canonical (plainDigest abc) abc)) by (vm_compute; reflexivity).
  intros mount afterA.
  split; [exact Hne |]. split; [reflexivity |].
  destruct (mounted_blob_outlives_source sourceRegistry "foo/source" "foo/bar"
              (plainDigest abc) (storage.canonical (plainDigest abc) abc)
              Hne eq_refl Hs sourceRegistry_public)
    as (_ & _ & HR & HA & _).
  split; [exact HR | exact HA].
Defined.
End Samples.

(** ** More on the blob handlers *)

Section MoreHandlerFacts.
Import handlers.

Context {W : Type} (h : env handlers.ans W).

(** The runs of [GetBlob]: the calls have one of four shapes, and the
    context either comes back as it was, after a [ServeBlob] as last
    call, or comes back with one more error. *)
Lemma GetBlob_runs (w : W) (dgst : Digest) (bh : Context) :
  let t := calls_of h (GetBlob dgst bh) w in
  let c := result_of h (GetBlob dgst bh) w in
  let attempt := Create [WithMount dgst; WithoutUpload] in
  (t = [Stat dgst] \/ (exists d, t = [Stat dgst; ServeBlob d]) \/
   t = [Stat dgst; attempt] \/ t = [Stat dgst; attempt; ServeBlob dgst]) /\
  ((c = bh /\ served t = true) \/ exists e, c = appendError bh e).
Proof.
  unfold calls_of, result_of, GetBlob. simpl.
  destruct (h (Stat dgst) w) as [r w1]. destruct r as [desc | err]; simpl.
  - destruct (h (ServeBlob (dDigest desc)) w1) as [s w2].
    split; [right; left; eexists; destruct s; reflexivity |].
    destruct s; simpl; [right; eexists; reflexivity | left; split; reflexivity].
  - destruct (decide (err = ErrBlobUnknown)); simpl.
    2: { split; [left; reflexivity | right; eexists; reflexivity]. }
    destruct (h (Create [WithMount dgst; WithoutUpload]) w1) as [m w2].
    destruct m as [bw | err']; simpl.
    { split; [right; right; left; reflexivity | right; eexists; reflexivity]. }
    destruct (As_ErrBlobMounted err'); simpl.
    2: { split; [right; right; left; reflexivity | right; eexists; reflexivity]. }
    destruct (h (ServeBlob dgst) w2) as [s w3].
    split; [right; right; right; destruct s; reflexivity |].
    destruct s; simpl; [right; eexists; reflexivity | left; split; reflexivity].
Qed.

(** X1.  When [Stat] succeeds, [GetBlob] serves the digest of the
    descriptor it got, which need not be the requested digest, and makes
    no mount attempt; when [Stat] fails with anything but the
    [ErrBlobUnknown] sentinel itself, be it an error wrapping that
    sentinel, it makes no further call and reports [ErrorCodeUnknown]
    with that error. *)
Theorem GetBlob_without_mount (w : W) (dgst : Digest) (bh : Context) :
  let stat := h (Stat dgst) w in
  match stat.1 with
  | Ok desc =>
      let serve := h (ServeBlob (dDigest desc)) stat.2 in
      run h (GetBlob dgst bh) w =
      (match serve.1 with
       | None => bh
       | Some e => appendError bh (WithDetail ErrorCodeUnknown (DetailError e))
       end, serve.2, [Stat dgst; ServeBlob (dDigest desc)])
  | Err err =>
      if decide (err = ErrBlobUnknown) then
        existsb isCreate (calls_of h (GetBlob dgst bh) w) = true
      else
        run h (GetBlob dgst bh) w =
        (appendError bh (WithDetail ErrorCodeUnknown (DetailError err)), stat.2,
         [Stat dgst])
  end.
Proof.
  unfold calls_of, GetBlob. simpl.
  destruct (h (Stat dgst) w) as [r w1]. destruct r as [desc | err]; simpl.
  - destruct (h (ServeBlob (dDigest desc)) w1) as [s w2]. destruct s; reflexivity.
  - destruct (decide (err = ErrBlobUnknown)); simpl; [| reflexivity].
    destruct (h (Create [WithMount dgst; WithoutUpload]) w1) as [m w2].
    destruct m as [bw | err']; simpl; [reflexivity |].
    destruct (As_ErrBlobMounted err'); simpl; [| reflexivity].
    destruct (h (ServeBlob dgst) w2) as [s w3]. destruct s; reflexivity.
Qed.

(** X2.  Whatever the blob store answers, [GetBlob] never deletes, makes
    at most one mount attempt and at most one [ServeBlob], which is then
    its last call; it keeps the errors already in the context and the
    read-only flag, appends at most one error, and appends exactly one
    whenever it served nothing. *)
Theorem GetBlob_discipline (w : W) (dgst : Digest) (bh : Context) :
  let t := calls_of h (GetBlob dgst bh) w in
  let c := result_of h (GetBlob dgst bh) w in
  existsb isDelete t = false /\
  (length (List.filter isCreate t) <= 1)%nat /\
  (length (List.filter isServe t) <= 1)%nat /\
  (served t = true -> exists pre d, t = pre ++ [ServeBlob d] /\ served pre = false) /\
  readOnly c = readOnly bh /\
  (exists es, Errors c = Errors bh ++ es /\ (length es <= 1)%nat /\
              (served t = false -> length es = 1%nat)).
Proof.
  intros t c. destruct (GetBlob_runs w dgst bh) as [Hshape Hres].
  fold t in Hshape, Hres. fold c in Hres.
  assert (Hc : readOnly c = readOnly bh /\
               exists es, Errors c = Errors bh ++ es /\ (length es <= 1)%nat /\
                          (served t = false -> length es = 1%nat)).
  { destruct Hres as [[-> Hs] | [e ->]].
    - split; [reflexivity |]. exists []. rewrite app_nil_r.
      split; [reflexivity |]. split; [simpl; lia |]. rewrite Hs. discriminate.
    - split; [reflexivity |]. exists [e]. simpl. split; [reflexivity |]. split; [lia |].
      reflexivity. }
  destruct Hc as [Hro Herr].
  destruct Hshape as [-> | [[d ->] | [-> | ->]]]; simpl;
    (split; [reflexivity |]); (split; [lia |]); (split; [lia |]);
    (split; [| split; [exact Hro | exact Herr]]).
  - discriminate.
  - intros _. exists [Stat dgst], d. split; reflexivity.
  - discriminate.
  - intros _. exists [Stat dgst; Create [WithMount dgst; WithoutUpload]], dgst.
    split; reflexivity.
Qed.

(** X3.  [DeleteBlob] makes the one call [Delete] for its digest.  It
    writes status 202 with a zero Content-Length exactly when the delete
    succeeded, and then leaves the errors untouched; otherwise it writes
    nothing and appends exactly one error: the bare Unsupported or
    BlobUnknown code for the respective sentinel, and the error itself
    in every other case, also when it wraps one of the sentinels. *)
Theorem DeleteBlob_spec (w : W) (dgst : Digest) (bh : Context) :
  let answer := (h (Delete dgst) w).1 in
  let c := (result_of h (DeleteBlob dgst bh) w).1 in
  let resp := (result_of h (DeleteBlob dgst bh) w).2 in
  calls_of h (DeleteBlob dgst bh) w = [Delete dgst] /\
  readOnly c = readOnly bh /\
  (status resp = Some 202 <-> answer = None) /\
  (Errors c = Errors bh <-> answer = None) /\
  match answer with
  | None => resp = {| header := [("Content-Length", "0")]; status := Some 202 |}
  | Some err =>
      resp = noResponse /\
      Errors c = Errors bh ++
        [if decide (err = ErrUnsupported) then Bare ErrorCodeUnsupported
         else if decide (err = ErrBlobUnknown) then Bare ErrorCodeBlobUnknown
         else Raw err]
  end /\
  forall msg inner, answer = Some (ErrWrap msg inner) ->
    Errors c = Errors bh ++ [Raw (ErrWrap msg inner)].
Proof.
  unfold calls_of, result_of, DeleteBlob. simpl.
  destruct (h (Delete dgst) w) as [a w1]. simpl.
  assert (Hgrow : forall e, Errors bh ++ [e] <> Errors bh).
  { intros e He. apply (f_equal length) in He. rewrite length_app in He. simpl in He. lia. }
  destruct a as [err |]; simpl.
  - destruct (decide (err = ErrUnsupported)) as [-> | H1];
      [| destruct (decide (err = ErrBlobUnknown)) as [-> | H2]]; simpl;
      (split; [reflexivity |]); (split; [reflexivity |]);
      (split; [split; discriminate |]);
      (split; [split; [intros He; exfalso; exact (Hgrow _ He) | discriminate] |]);
      (split; [split; reflexivity |]);
      intros msg inner [= E]; try discriminate E; subst; reflexivity.
  - repeat split; try reflexivity; discriminate.
Qed.

End MoreHandlerFacts.

Section ReadOnlyFacts.
Import handlers.

Variable getDigest : Context -> result Digest.

Lemma GetBlob_no_delete {W : Type} (h : env handlers.ans W) (w : W) (dgst : Digest)
    (bh : Context) :
  existsb isDelete (calls_of h (GetBlob dgst bh) w) = false.
Proof.
  destruct (GetBlob_runs h w dgst bh) as [[-> | [[d ->] | [-> | ->]]] _]; reflexivity.
Qed.

(** X4.  A handler that the dispatcher hands out for a read-only
    context, or for any method other than DELETE, never calls [Delete]
    on the blob store, whatever the store answers and whatever context
    it is later run on. *)
Theorem dispatched_handler_never_deletes {W : Type} (h : env handlers.ans W) (w : W)
    (ctx c : Context) (method : string) (f : handlerFunc) :
  readOnly ctx = true \/ method <> MethodDelete ->
  handler_for (blobDispatcher getDigest ctx) method = Some f ->
  existsb isDelete (calls_of h (call_handlerFunc f c) w) = false.
Proof.
  intros Hsafe Hf.
  assert (Hget : forall dgst, existsb isDelete
                   (calls_of h (call_handlerFunc (GetBlobFunc dgst) c) w) = false).
  { intros dgst. unfold calls_of, call_handlerFunc. rewrite run_bind.
    pose proof (GetBlob_no_delete h w dgst c) as Hn. unfold calls_of in Hn.
    destruct (run h (GetBlob dgst c) w) as [[c' w'] t]. simpl in *.
    rewrite app_nil_r. exact Hn. }
  unfold blobDispatcher in Hf.
  destruct (getDigest ctx) as [dgst | err].
  - simpl in Hf. destruct (readOnly ctx) eqn:Hro; simpl in Hf.
    + apply lookup_insert_Some in Hf as [[_ <-] | [_ Hf]]; [apply Hget |].
      apply lookup_insert_Some in Hf as [[_ <-] | [_ Hf]]; [apply Hget |].
      rewrite lookup_empty in Hf. discriminate.
    + destruct Hsafe as [? | Hm]; [discriminate |].
      apply lookup_insert_Some in Hf as [[Heq _] | [_ Hf]]; [congruence |].
      apply lookup_insert_Some in Hf as [[_ <-] | [_ Hf]]; [apply Hget |].
      apply lookup_insert_Some in Hf as [[_ <-] | [_ Hf]]; [apply Hget |].
      rewrite lookup_empty in Hf. discriminate.
  - assert (f = DigestInvalidFunc err) as ->.
    { destruct (decide (err = errDigestNotAvailable)); simpl in Hf; congruence. }
    reflexivity.
Qed.

End ReadOnlyFacts.

(** ** More on the startup scan *)

Section MoreScanFacts.
Import proxy.

Lemma run_scanIngester_mem_annotated (m : gmap Digest Descriptor) (a b : nat)
    (dgst : Digest) :
  annotated m dgst ->
  run memDescriptorService (scanIngester (a, b) dgst) m =
  (((S a, b), None), m, [ds.Stat dgst]).
Proof.
  intros [v Hv]. unfold scanIngester. rewrite run_bind, run_setPublic_mem, Hv.
  reflexivity.
Qed.

Lemma run_Enumerate_mem_annotated (blobs : list Digest) :
  forall (m : gmap Digest Descriptor) (a b : nat),
    Forall (annotated m) blobs ->
    run memDescriptorService (Enumerate blobs scanIngester (a, b)) m =
    ((((a + length blobs)%nat, b), None), m, ds.Stat <$> blobs).
Proof.
  induction blobs as [| dgst rest IH]; intros m a b Hall.
  - simpl. rewrite Nat.add_0_r. reflexivity.
  - apply Forall_cons in Hall as [Hd Hrest].
    cbn [Enumerate]. rewrite run_bind, (run_scanIngester_mem_annotated m a b dgst Hd).
    cbn [fst snd]. rewrite (IH m (S a) b Hrest). simpl.
    rewrite Nat.add_succ_r. reflexivity.
Qed.

Lemma scannedCache_all_annotated (blobs : list Digest) (m : gmap Digest Descriptor) :
  Forall (annotated (scannedCache blobs m)) blobs.
Proof.
  apply Forall_forall. intros dgst Hin. unfold annotated, cached.
  destruct (Annotations (cached m dgst) !! "public") as [v |] eqn:E.
  - unfold cached in E. destruct (m !! dgst) as [desc |] eqn:Hd; simpl in E.
    + rewrite (scannedCache_annotated blobs m dgst desc Hd) by (rewrite E; eauto).
      simpl. rewrite E. eauto.
    + rewrite lookup_empty in E. discriminate.
  - rewrite (scannedCache_unannotated blobs m dgst Hin E). simpl.
    rewrite lookup_singleton_eq. eauto.
Qed.

Lemma markedCache_comm (a b : Digest) (m : gmap Digest Descriptor) :
  markedCache a (markedCache b m) = markedCache b (markedCache a m).
Proof.
  destruct (decide (a = b)) as [-> | Hne]; [reflexivity |].
  assert (Ha : cached (markedCache b m) a = cached m a).
  { unfold cached. rewrite markedCache_other by congruence. reflexivity. }
  assert (Hb : cached (markedCache a m) b = cached m b).
  { unfold cached. rewrite markedCache_other by congruence. reflexivity. }
  unfold markedCache at 1 3. rewrite Ha, Hb. unfold markedCache.
  destruct (Annotations (cached m a) !! "public"),
           (Annotations (cached m b) !! "public"); try reflexivity.
  apply insert_insert_ne. congruence.
Qed.

Lemma scannedCache_Permutation (blobs blobs' : list Digest) :
  blobs ≡ₚ blobs' ->
  forall m : gmap Digest Descriptor, scannedCache blobs m = scannedCache blobs' m.
Proof.
  induction 1 as [| x l l' _ IH | x y l | l l' l'' _ IH1 _ IH2]; intros m; simpl.
  - reflexivity.
  - apply IH.
  - rewrite markedCache_comm. reflexivity.
  - rewrite IH1. apply IH2.
Qed.

(** X5.  On the in-memory descriptor service, a second scan over the
    same blobs right after the first asks about every blob again but
    writes nothing, tags no blob and leaves the cache as the first scan
    left it. *)
Theorem scan_twice (m : gmap Digest Descriptor) (blobs : list Digest) :
  let m1 := state_of memDescriptorService (setBlobsPublic blobs) m in
  run memDescriptorService (setBlobsPublic blobs) m1 =
  ((length blobs, 0%nat), m1, ds.Stat <$> blobs).
Proof.
  intros m1. subst m1.
  destruct (state_setBlobsPublic_mem blobs m) as (-> & _ & _).
  unfold setBlobsPublic. rewrite run_bind.
  rewrite (run_Enumerate_mem_annotated blobs _ 0 0 (scannedCache_all_annotated blobs m)).
  simpl. rewrite app_nil_r. reflexivity.
Qed.

(** X6.  On the in-memory descriptor service, the cache that the scan
    leaves and the number of blobs it counts do not depend on the order
    in which the blobs are enumerated. *)
Theorem scan_order_irrelevant (m : gmap Digest Descriptor) (blobs blobs' : list Digest) :
  blobs ≡ₚ blobs' ->
  state_of memDescriptorService (setBlobsPublic blobs) m =
  state_of memDescriptorService (setBlobsPublic blobs') m /\
  (result_of memDescriptorService (setBlobsPublic blobs) m).1 =
  (result_of memDescriptorService (setBlobsPublic blobs') m).1.
Proof.
  intros Hp.
  destruct (state_setBlobsPublic_mem blobs m) as (-> & -> & _).
  destruct (state_setBlobsPublic_mem blobs' m) as (-> & -> & _).
  split; [apply scannedCache_Permutation; exact Hp | apply Permutation_length; exact Hp].
Qed.

(** X7.  On the in-memory descriptor service, the scan never removes a
    descriptor, never changes the media type, size or digest of one it
    finds, and never takes a [public=true] mark away; a digest absent
    from the cache is present afterwards exactly when it was enumerated,
    and then with the zero descriptor (empty digest, size 0) carrying
    the mark. *)
Theorem scan_monotone (m : gmap Digest Descriptor) (blobs : list Digest) (dgst : Digest) :
  let m' := state_of memDescriptorService (setBlobsPublic blobs) m in
  match m !! dgst with
  | Some desc =>
      exists desc',
        m' !! dgst = Some desc' /\
        MediaType desc' = MediaType desc /\ Size desc' = Size desc /\
        dDigest desc' = dDigest desc /\
        (Annotations desc !! "public" = Some "true" ->
         Annotations desc' !! "public" = Some "true")
  | None =>
      m' !! dgst = (if decide (dgst ∈ blobs) then Some (marked zeroDescriptor) else None)
  end.
Proof.
  intros m'. subst m'.
  destruct (state_setBlobsPublic_mem blobs m) as (-> & _ & _).
  destruct (m !! dgst) as [desc |] eqn:Hd.
  - destruct (Annotations desc !! "public") as [v |] eqn:E.
    + exists desc. rewrite (scannedCache_annotated blobs m dgst desc Hd) by (rewrite E; eauto).
      repeat split; try assumption; try reflexivity. intros Ht. rewrite <- Ht. exact E.
    + destruct (decide (dgst ∈ blobs)) as [Hin | Hnin].
      * assert (Hc : cached m dgst = desc) by (unfold cached; rewrite Hd; reflexivity).
        exists (marked desc).
        rewrite (scannedCache_unannotated blobs m dgst Hin) by (rewrite Hc; exact E).
        rewrite Hc. repeat split; discriminate.
      * exists desc. rewrite (scannedCache_elsewhere blobs m dgst Hnin).
        repeat split; try assumption; try reflexivity; discriminate.
  - destruct (decide (dgst ∈ blobs)) as [Hin | Hnin].
    + assert (Hc : cached m dgst = zeroDescriptor) by (unfold cached; rewrite Hd; reflexivity).
      rewrite (scannedCache_unannotated blobs m dgst Hin) by (rewrite Hc; apply lookup_empty).
      rewrite Hc. reflexivity.
    + rewrite (scannedCache_elsewhere blobs m dgst Hnin). exact Hd.
Qed.

End MoreScanFacts.

(** ** More on the proxied registry *)

Section ConstructorFacts.
Import proxy.

(** X8.  [NewRegistryPullThroughCache] parses the remote URL first and,
    when that fails, returns the error having created nothing.
    Otherwise it creates the vacuum and the scheduler on the same
    driver, registers both expiry callbacks (over the local namespace,
    the blob one also over that vacuum) and only then starts the
    scheduler.  When the start fails, its error is returned as it is
    and nothing more is called; when the auth configuration after it
    fails, that error is returned as it is; in both cases no challenge
    manager is created and no scan is launched.  On success the scan of
    the new registry is launched as the last call, and the registry
    holds the started scheduler, the local namespace, the parsed URL
    (also as the challenger's), the configured credential store, the
    new challenge manager and the descriptor service it was given. *)
Theorem NewRegistryPullThroughCache_paths {W : Type} (h : env startup.ans W) (w : W)
    (registry driver : loc) (config : Proxy) (ds : loc) :
  let out := run h (NewRegistryPullThroughCache registry driver config ds) w in
  let auth := startup.configureAuth (Username config) (Password config) (RemoteURL config) in
  let parsed := h (startup.urlParse (RemoteURL config)) w in
  match parsed.1 with
  | Err err => out = (Err err, parsed.2, [startup.urlParse (RemoteURL config)])
  | Ok u =>
      let vacuum := h (startup.NewVacuum driver) parsed.2 in
      let sched := h (startup.schedulerNew driver "/scheduler-state.json") vacuum.2 in
      let onBlob := h (startup.OnBlobExpire sched.1 registry vacuum.1) sched.2 in
      let onManifest := h (startup.OnManifestExpire sched.1 registry) onBlob.2 in
      let started := h (startup.Start sched.1) onManifest.2 in
      let setup :=
        [startup.urlParse (RemoteURL config); startup.NewVacuum driver;
         startup.schedulerNew driver "/scheduler-state.json";
         startup.OnBlobExpire sched.1 registry vacuum.1;
         startup.OnManifestExpire sched.1 registry; startup.Start sched.1] in
      match started.1 with
      | Some err => out = (Err err, started.2, setup)
      | None =>
          let configured := h auth started.2 in
          match configured.1 with
          | Err err => out = (Err err, configured.2, setup ++ [auth])
          | Ok store =>
              let manager := h startup.NewSimpleManager configured.2 in
              let p := {| embedded := registry; scheduler := sched.1;
                          pr_remoteURL := u;
                          authChallenger :=
                            {| remoteURL := u; cm := manager.1; cs := store |};
                          descriptorService := ds |} in
              out = (Ok p, (h (startup.goSetBlobsPublic p) manager.2).2,
                     setup ++ [auth; startup.NewSimpleManager; startup.goSetBlobsPublic p])
          end
      end
  end.
Proof.
  unfold NewRegistryPullThroughCache. simpl.
  destruct (h (startup.urlParse (RemoteURL config)) w) as [[u | err] w1]; simpl;
    [| reflexivity].
  destruct (h (startup.NewVacuum driver) w1) as [v w2]; simpl.
  destruct (h (startup.schedulerNew driver "/scheduler-state.json") w2) as [s w3]; simpl.
  destruct (h (startup.OnBlobExpire s registry v) w3) as [[] w4]; simpl.
  destruct (h (startup.OnManifestExpire s registry) w4) as [[] w5]; simpl.
  destruct (h (startup.Start s) w5) as [[err |] w6]; simpl; [reflexivity |].
  destruct (h (startup.configureAuth (Username config) (Password config)
                 (RemoteURL config)) w6) as [[store | err] w7]; simpl; [| reflexivity].
  destruct (h startup.NewSimpleManager w7) as [manager w8]; simpl.
  match goal with
  | |- context [h ?c w8] => destruct (h c w8) as [[] w9]; simpl
  end.
  reflexivity.
Qed.

End ConstructorFacts.

Section MoreChallengerFacts.
Import proxy.

Variable challengeHeader : string.

(** X9.  Whatever the manager and the upstream answer,
    [tryEstablishChallenges] takes the mutex as its first call and
    releases it as its last, touches it nowhere in between, asks the
    manager once and pings at most once.  The path of the configured
    remote URL plays no role: the manager is asked about the configured
    URL with its path replaced by /v2/, and the ping goes to the string
    form of that same URL. *)
Theorem tryEstablishChallenges_discipline {W : Type} (h : env challenger.ans W) (w : W)
    (r : remoteAuthChallenger) :
  let t := calls_of h (tryEstablishChallenges challengeHeader r) w in
  let endpoint := {| Scheme := Scheme (remoteURL r); Host := Host (remoteURL r);
                     Path := "/v2/" |} in
  (exists mid,
     t = challenger.Lock :: mid ++ [challenger.Unlock] /\
     existsb isLocking mid = false /\
     (mid = [challenger.GetChallenges (cm r) endpoint] \/
      mid = [challenger.GetChallenges (cm r) endpoint;
             challenger.ping (cm r) (URL_String endpoint) challengeHeader])) /\
  forall p : string,
    tryEstablishChallenges challengeHeader
      {| remoteURL := withPath (remoteURL r) p; cm := cm r; cs := cs r |} =
    tryEstablishChallenges challengeHeader r.
Proof.
  split; [| intros p; reflexivity].
  unfold calls_of, tryEstablishChallenges. simpl.
  destruct (h challenger.Lock w) as [[] w1]. simpl.
  destruct (h (challenger.GetChallenges (cm r) (withPath (remoteURL r) "/v2/")) w1)
    as [c w2]. simpl.
  destruct c as [[| ch rest] | err]; simpl.
  - destruct (h (challenger.ping (cm r) (URL_String (withPath (remoteURL r) "/v2/"))
                   challengeHeader) w2) as [e w3]. simpl.
    eexists [_; _].
    destruct e; simpl; destruct (h challenger.Unlock w3); simpl;
      (split; [reflexivity |]); (split; [reflexivity |]); right; reflexivity.
  - destruct (h challenger.Unlock w2). simpl. eexists [_].
    split; [reflexivity |]. split; [reflexivity |]. left. reflexivity.
  - destruct (h challenger.Unlock w2). simpl. eexists [_].
    split; [reflexivity |]. split; [reflexivity |]. left. reflexivity.
Qed.

End MoreChallengerFacts.

Section MoreExpireFacts.
Import proxy.

Context {W : Type} (h : env expire.ans W).

(** X10.  Whatever the collaborators answer: the blob callback never
    touches a manifest service and the manifest callback never deletes a
    blob; a callback that returns no error was given a canonical
    reference and has made all its calls, for the name and digest of that
    reference (so a blob was removed through the vacuum only after the
    blob store deleted it); and a callback that made fewer calls
    returned an error. *)
Theorem expiry_callbacks_discipline (w : W) (ref : Reference) :
  let tb := calls_of h (onBlobExpire ref) w in
  let tm := calls_of h (onManifestExpire ref) w in
  existsb isManifestCall tb = false /\
  existsb isBlobDeletion tm = false /\
  (forall dgst, In (expire.RemoveBlob dgst) tb ->
     exists name repo, tb = [expire.Repository name; expire.BlobsDelete repo dgst;
                             expire.RemoveBlob dgst] /\
                       ref = canonicalReference name dgst) /\
  (result_of h (onBlobExpire ref) w = None ->
     exists name dgst repo,
       ref = canonicalReference name dgst /\
       tb = [expire.Repository name; expire.BlobsDelete repo dgst; expire.RemoveBlob dgst]) /\
  (result_of h (onManifestExpire ref) w = None ->
     exists name dgst repo manifests,
       ref = canonicalReference name dgst /\
       tm = [expire.Repository name; expire.Manifests repo;
             expire.ManifestsDelete manifests dgst]).
Proof.
  unfold calls_of, result_of.
  destruct ref as [name dgst | name tag | name]; simpl;
    try (repeat split; try reflexivity; try discriminate; intros ? []).
  destruct (h (expire.Repository name) w) as [r w1].
  destruct r as [repo | err]; simpl.
  2: { repeat split; try reflexivity; try discriminate.
       intros d [Hd | []]. discriminate. }
  split.
  { destruct (h (expire.BlobsDelete repo dgst) w1) as [d w2].
    destruct d as [err |]; simpl; [reflexivity |].
    destruct (h (expire.RemoveBlob dgst) w2) as [v w3]. destruct v; reflexivity. }
  split.
  { destruct (h (expire.Manifests repo) w1) as [ms w2].
    destruct ms as [manifests | err]; simpl; [| reflexivity].
    destruct (h (expire.ManifestsDelete manifests dgst) w2) as [d w3].
    destruct d; reflexivity. }
  split; [| split].
  - destruct (h (expire.BlobsDelete repo dgst) w1) as [d w2].
    destruct d as [err |]; simpl.
    { intros d [Hd | [Hd | []]]; discriminate. }
    destruct (h (expire.RemoveBlob dgst) w2) as [v w3].
    assert (Ht : forall d : Digest,
               In (expire.RemoveBlob d)
                 [expire.Repository name; expire.BlobsDelete repo dgst;
                  expire.RemoveBlob dgst] ->
               exists name0 repo0,
                 [expire.Repository name; expire.BlobsDelete repo dgst;
                  expire.RemoveBlob dgst] =
                 [expire.Repository name0; expire.BlobsDelete repo0 d; expire.RemoveBlob d] /\
                 canonicalReference name dgst = canonicalReference name0 d).
    { intros d [Hd | [Hd | [Hd | []]]]; try discriminate.
      injection Hd as <-. exists name, repo. split; reflexivity. }
    destruct v; simpl; exact Ht.
  - destruct (h (expire.BlobsDelete repo dgst) w1) as [d w2].
    destruct d as [err |]; simpl; [discriminate |].
    destruct (h (expire.RemoveBlob dgst) w2) as [v w3].
    destruct v; simpl; [discriminate |].
    intros _. exists name, dgst, repo. split; reflexivity.
  - destruct (h (expire.Manifests repo) w1) as [ms w2].
    destruct ms as [manifests | err]; simpl; [| discriminate].
    destruct (h (expire.ManifestsDelete manifests dgst) w2) as [d w3].
    destruct d; simpl; [discriminate |].
    intros _. exists name, dgst, repo, manifests. split; reflexivity.
Qed.

End MoreExpireFacts.

(** ** More on [proxyingRegistry.Repository] *)

Section MoreRepositoryFacts.
Import proxy.

(** The runs of [Repository]: the calls are made in a fixed order and
    end at the first failure. *)
Lemma Repository_runs {W : Type} (h : env repo.ans W) (w : W)
    (pr : proxyingRegistry) (name : string) :
  let t := calls_of h (Repository pr name) w in
  let emb := repo.embeddedRepository (embedded pr) name in
  let new := repo.NewRepository name (URL_String (pr_remoteURL pr)) (pullTransport pr name) in
  match result_of h (Repository pr name) w with
  | Err err =>
      t = [emb] \/
      (exists l, t = [emb; repo.localManifests l [SkipLayerVerification]]) \/
      (exists l, t = [emb; repo.localManifests l [SkipLayerVerification]; new]) \/
      (exists l rr, t = [emb; repo.localManifests l [SkipLayerVerification]; new;
                         repo.remoteManifests rr])
  | Ok r =>
      exists l lm rr rm,
        t = [emb; repo.localManifests l [SkipLayerVerification]; new;
             repo.remoteManifests rr] /\
        r = {| proxiedRepository.blobStore :=
                 {| proxyBlobStore.localStore := Blobs l;
                    proxyBlobStore.remoteStore := Blobs rr;
                    proxyBlobStore.scheduler := scheduler pr;
                    proxyBlobStore.repositoryName := name;
                    proxyBlobStore.authChallenger := authChallenger pr;
                    proxyBlobStore.setPublic := setBlobPublic (descriptorService pr) |};
               proxiedRepository.manifests :=
                 {| proxyManifestStore.repositoryName := name;
                    proxyManifestStore.localManifests := lm;
                    proxyManifestStore.remoteManifests := rm;
                    proxyManifestStore.scheduler := scheduler pr;
                    proxyManifestStore.authChallenger := authChallenger pr |};
               proxiedRepository.name := name;
               proxiedRepository.tags :=
                 {| proxyTagService.localTags := Tags l;
                    proxyTagService.remoteTags := Tags rr;
                    proxyTagService.authChallenger := authChallenger pr |} |}
  end.
Proof.
  unfold calls_of, result_of, Repository, pullTransport. simpl.
  destruct (h (repo.embeddedRepository (embedded pr) name) w) as [[l | err] w1]; simpl;
    [| left; reflexivity].
  destruct (h (repo.localManifests l [SkipLayerVerification]) w1) as [[lm | err] w2]; simpl;
    [| right; left; eexists; reflexivity].
  match goal with
  | |- context [h ?c w2] => destruct (h c w2) as [[rr | err] w3]; simpl
  end; [| right; right; left; eexists; reflexivity].
  destruct (h (repo.remoteManifests rr) w3) as [[rm | err] w4]; simpl;
    [| right; right; right; eexists _, _; reflexivity].
  exists l, lm, rr, rm. split; reflexivity.
Qed.

(** X11.  [Repository] asks the local namespace for the repository,
    then that repository for its manifest service (with layer
    verification skipped), then creates the upstream client, then asks
    it for its manifest service; the first of these that fails ends it:
    its error is returned as it is and no later call is made, so an
    upstream client is created only once the local repository and its
    manifest service were obtained.  When all four succeed the blob
    store and the tag service read locally from the local repository
    and remotely from the upstream repository, the manifest store holds
    the two manifest services obtained, the blob store marks blobs
    public on the registry's descriptor service, and the repository
    answers [Named] with the requested name and [Manifests] with its
    manifest store for any options. *)
Theorem Repository_order {W : Type} (h : env repo.ans W) (w : W)
    (pr : proxyingRegistry) (name : string) :
  let out := run h (Repository pr name) w in
  let emb := repo.embeddedRepository (embedded pr) name in
  let new := repo.NewRepository name (URL_String (pr_remoteURL pr)) (pullTransport pr name) in
  let local := h emb w in
  match local.1 with
  | Err err => out = (Err err, local.2, [emb])
  | Ok l =>
      let lms := repo.localManifests l [SkipLayerVerification] in
      let localMs := h lms local.2 in
      match localMs.1 with
      | Err err => out = (Err err, localMs.2, [emb; lms])
      | Ok lm =>
          let remote := h new localMs.2 in
          match remote.1 with
          | Err err => out = (Err err, remote.2, [emb; lms; new])
          | Ok rr =>
              let remoteMs := h (repo.remoteManifests rr) remote.2 in
              match remoteMs.1 with
              | Err err =>
                  out = (Err err, remoteMs.2, [emb; lms; new; repo.remoteManifests rr])
              | Ok rm =>
                  exists r,
                    out = (Ok r, remoteMs.2, [emb; lms; new; repo.remoteManifests rr]) /\
                    proxyBlobStore.localStore (repositoryBlobs r) = Blobs l /\
                    proxyBlobStore.remoteStore (repositoryBlobs r) = Blobs rr /\
                    proxyTagService.localTags (repositoryTags r) = Tags l /\
                    proxyTagService.remoteTags (repositoryTags r) = Tags rr /\
                    proxyManifestStore.localManifests (proxiedRepository.manifests r) = lm /\
                    proxyManifestStore.remoteManifests (proxiedRepository.manifests r) = rm /\
                    proxyBlobStore.setPublic (repositoryBlobs r) =
                      setBlobPublic (descriptorService pr) /\
                    proxyBlobStore.repositoryName (repositoryBlobs r) = name /\
                    proxyManifestStore.repositoryName (proxiedRepository.manifests r) = name /\
                    Named r = name /\
                    forall options, Manifests r options = Ok (proxiedRepository.manifests r)
              end
          end
      end
  end.
Proof.
  unfold Repository, pullTransport, credentialStore, challengeManager. simpl.
  destruct (h (repo.embeddedRepository (embedded pr) name) w) as [[l | err] w1]; simpl;
    [| reflexivity].
  destruct (h (repo.localManifests l [SkipLayerVerification]) w1) as [[lm | err] w2]; simpl;
    [| reflexivity].
  match goal with
  | |- context [h ?c w2] => destruct (h c w2) as [[rr | err] w3]; simpl
  end; [| reflexivity].
  destruct (h (repo.remoteManifests rr) w3) as [[rm | err] w4]; simpl; [| reflexivity].
  eexists. split; [reflexivity |]. repeat split.
Qed.

(** X12.  Two repositories built from one registry share its scheduler,
    auth challenger and descriptor service, whatever their names and
    whatever the collaborators answered; their upstream clients use the
    same base URL, and the same transport only when the names are the
    same. *)
Theorem repositories_share {W W' : Type} (h : env repo.ans W) (h' : env repo.ans W')
    (w : W) (w' : W') (pr : proxyingRegistry) (name name' : string)
    (r r' : proxiedRepository.t) :
  result_of h (Repository pr name) w = Ok r ->
  result_of h' (Repository pr name') w' = Ok r' ->
  blobStoreWires (repositoryBlobs r) = blobStoreWires (repositoryBlobs r') /\
  manifestsWires (proxiedRepository.manifests r) =
    manifestsWires (proxiedRepository.manifests r') /\
  tagsWires (repositoryTags r) = tagsWires (repositoryTags r') /\
  proxyBlobStore.setPublic (repositoryBlobs r) = proxyBlobStore.setPublic (repositoryBlobs r') /\
  exists u tr tr',
    In (repo.NewRepository name u tr) (calls_of h (Repository pr name) w) /\
    In (repo.NewRepository name' u tr') (calls_of h' (Repository pr name') w') /\
    (tr = tr' <-> name = name').
Proof.
  intros Hr Hr'.
  pose proof (Repository_runs h w pr name) as H.
  pose proof (Repository_runs h' w' pr name') as H'.
  cbv zeta in H, H'. rewrite Hr in H. rewrite Hr' in H'.
  destruct H as (l & lm & rr & rm & Ht & ->).
  destruct H' as (l' & lm' & rr' & rm' & Ht' & ->).
  repeat (split; [reflexivity |]).
  exists (URL_String (pr_remoteURL pr)), (pullTransport pr name), (pullTransport pr name').
  rewrite Ht, Ht'. split; [simpl; auto |]. split; [simpl; auto |].
  unfold pullTransport. split; [intros [= ->]; reflexivity | intros ->; reflexivity].
Qed.

End MoreRepositoryFacts.

(** ** The helpers of the storage tests *)

Section TestHelperFacts.
Import blob_test.

Lemma int64_small (x : Z) : - 2 ^ 63 <= x < 2 ^ 63 -> int64 x = x.
Proof. intros H. unfold int64. rewrite Z.mod_small by lia. lia. Qed.

(** X13.  On a [bytes.Reader], wherever its read index stands,
    [seekerSize] returns the length of the slice and leaves the reader
    as it found it, after seeking to the current position, to the end
    and back. *)
Theorem seekerSize_Reader (r : Reader) :
  validReader r ->
  run ReaderSeek seekerSize r =
  (Ok (Z.of_nat (length (s r))), r,
   [seeker.Seek 0 SeekCurrent; seeker.Seek 0 SeekEnd; seeker.Seek (i r) SeekStart]).
Proof.
  intros [Hlen Hi]. destruct r as [bytes pos]. simpl in *.
  assert (Hpos : int64 (pos + 0) = pos) by (rewrite Z.add_0_r; apply int64_small; lia).
  assert (Hend : int64 (Z.of_nat (length bytes) + 0) = Z.of_nat (length bytes))
    by (rewrite Z.add_0_r; apply int64_small; lia).
  unfold seekerSize. simpl. rewrite Hpos.
  rewrite decide_False by lia. simpl. rewrite Hend.
  rewrite decide_False by lia. simpl.
  rewrite decide_False by lia. simpl.
  rewrite decide_False by (intros Hne; apply Hne; reflexivity).
  reflexivity.
Qed.

Context {W : Type} (h : env ingester.ans W).

(** X14.  [addBlob] commits, with the descriptor it was given, exactly
    when the upload was created and the copy ended without error having
    copied [desc.Size] bytes; a copy of another length gives the
    incorrect-number-of-bytes error without a commit.  Once the upload
    was created its last call is the deferred [Cancel], also after a
    successful commit; when the creation failed it makes no other call. *)
Theorem addBlob_spec (w : W) (desc : Descriptor) :
  let created := h ingester.Create w in
  let copied := h ingester.Copy created.2 in
  let t := calls_of h (addBlob desc) w in
  let r := result_of h (addBlob desc) w in
  (t = [ingester.Create] \/ t = [ingester.Create; ingester.Copy; ingester.Cancel] \/
   t = [ingester.Create; ingester.Copy; ingester.Commit desc; ingester.Cancel]) /\
  (existsb ingester.isCommit t = true <->
   created.1 = None /\ copied.1 = (Size desc, None)) /\
  match created.1 with
  | Some err => r = Err err /\ t = [ingester.Create]
  | None =>
      last t = Some ingester.Cancel /\
      match copied.1 with
      | (nn, Some err) => r = Err err
      | (nn, None) =>
          if decide (nn = Size desc) then r = (h (ingester.Commit desc) copied.2).1
          else r = Err (errIncorrectCopy nn (Size desc))
      end
  end.
Proof.
  unfold calls_of, result_of, addBlob. simpl.
  destruct (h ingester.Create w) as [[err |] w1]; simpl.
  { split; [left; reflexivity |]. split; [| split; reflexivity].
    split; [discriminate | intros [? _]; discriminate]. }
  destruct (h ingester.Copy w1) as [[nn [err |]] w2]; simpl.
  { destruct (h ingester.Cancel w2) as [? w3]. simpl.
    split; [right; left; reflexivity |]. split; [| split; reflexivity].
    split; [discriminate | intros [_ ?]; discriminate]. }
  destruct (decide (nn <> Size desc)) as [Hne | Heq]; simpl.
  - destruct (h ingester.Cancel w2) as [? w3]. simpl.
    split; [right; left; reflexivity |]. split.
    + split; [discriminate | intros [_ [= ?]]; contradiction].
    + split; [reflexivity |]. rewrite decide_False by exact Hne. reflexivity.
  - assert (nn = Size desc) as -> by (destruct (decide (nn = Size desc)); [assumption | contradiction]).
    destruct (h (ingester.Commit desc) w2) as [c w3]. simpl.
    destruct (h ingester.Cancel w3) as [? w4]. simpl.
    split; [right; right; reflexivity |]. split.
    + split; [intros _; split; reflexivity | reflexivity].
    + split; [reflexivity |]. rewrite decide_True by reflexivity. reflexivity.
Qed.

(** X15.  [simpleUpload] returns normally only when the copy reported
    zero bytes: whenever [io.Copy] reports any other count, as it does
    for every non-empty blob it copies in full, the helper stops the
    test before a digest is computed and nothing is committed.  When it
    does return, it has committed once, with a descriptor that carries
    only the expected digest. *)
Theorem simpleUpload_only_empty (w : W) (expectedDigest : Digest) :
  let created := h ingester.Create w in
  let copied := h ingester.Copy created.2 in
  let t := calls_of h (simpleUpload expectedDigest) w in
  let r := result_of h (simpleUpload expectedDigest) w in
  (r = Returned ->
   copied.1 = (0, None) /\
   t = [ingester.Create; ingester.Copy; ingester.FromReader;
        ingester.Commit {| MediaType := ""; Size := 0; dDigest := expectedDigest;
                           Annotations := ∅ |}]) /\
  (created.1 = None -> copied.1.2 = None -> copied.1.1 <> 0 ->
   r = Fatalf "unexpected number of bytes copied: %v > 0" [ArgInt copied.1.1] /\
   t = [ingester.Create; ingester.Copy]).
Proof.
  unfold calls_of, result_of, simpleUpload. simpl.
  destruct (h ingester.Create w) as [[err |] w1]; simpl.
  { split; [discriminate | intros ?; discriminate]. }
  destruct (h ingester.Copy w1) as [[nn [err |]] w2]; simpl.
  { split; [discriminate | intros _ ?; discriminate]. }
  destruct (decide (nn <> 0)) as [Hne | Heq]; simpl.
  { split; [discriminate | intros _ _ _; split; reflexivity]. }
  assert (nn = 0) as -> by lia.
  split; [| intros _ _ Hn; contradiction].
  destruct (h ingester.FromReader w2) as [[dgst | err] w3]; simpl; [| discriminate].
  destruct (decide (dgst <> expectedDigest)) as [Hd | Hd]; simpl; [discriminate |].
  assert (dgst = expectedDigest) as ->
    by (destruct (decide (dgst = expectedDigest)); [assumption | contradiction]).
  match goal with
  | |- context [h ?c w3] => destruct (h c w3) as [[desc | err] w4]; simpl
  end; [| discriminate].
  destruct (decide (dDigest desc <> expectedDigest)); simpl; [discriminate |].
  intros _. split; reflexivity.
Qed.

End TestHelperFacts.

(** ** Further properties at the sample inputs *)

Section MoreSamples.
Import samples.

Lemma dispatched_handler_never_deletes_sample :
  (handlers.readOnly readOnlyContext = true \/ "GET" <> handlers.MethodDelete) /\
  handlers.handler_for (handlers.blobDispatcher parsedDigest readOnlyContext) "GET" =
    Some (handlers.GetBlobFunc "sha256:aa") /\
  existsb handlers.isDelete
    (calls_of mountingStore
       (handlers.call_handlerFunc (handlers.GetBlobFunc "sha256:aa") emptyContext) tt) = false.
Proof.
  split; [left; reflexivity |]. split; [reflexivity |].
  exact (dispatched_handler_never_deletes parsedDigest mountingStore tt readOnlyContext
           emptyContext "GET" (handlers.GetBlobFunc "sha256:aa")
           (or_introl eq_refl) eq_refl).
Defined.

Lemma scan_order_irrelevant_sample :
  ["sha256:aa"; "sha256:bb"] ≡ₚ ["sha256:bb"; "sha256:aa"] /\
  state_of proxy.memDescriptorService (proxy.setBlobsPublic ["sha256:aa"; "sha256:bb"]) ∅ =
  state_of proxy.memDescriptorService (proxy.setBlobsPublic ["sha256:bb"; "sha256:aa"]) ∅.
Proof.
  split; [apply perm_swap |].
  exact (proj1 (scan_order_irrelevant ∅ ["sha256:aa"; "sha256:bb"]
                  ["sha256:bb"; "sha256:aa"] (perm_swap _ _ _))).
Defined.

Lemma repositories_share_sample :
  exists r r',
    result_of proxy.freshRepoEnv (proxy.Repository proxy.sampleRegistry "library/alpine")
      10%positive = Ok r /\
    result_of proxy.freshRepoEnv (proxy.Repository proxy.sampleRegistry "library/busybox")
      20%positive = Ok r' /\
    proxy.blobStoreWires (proxy.repositoryBlobs r) =
    proxy.blobStoreWires (proxy.repositoryBlobs r').
Proof.
  eexists _, _. split; [reflexivity |]. split; [reflexivity |].
  exact (proj1 (repositories_share proxy.freshRepoEnv proxy.freshRepoEnv 10%positive
                  20%positive proxy.sampleRegistry "library/alpine" "library/busybox"
                  _ _ eq_refl eq_refl)).
Defined.

Lemma seekerSize_Reader_sample :
  blob_test.validReader abcReader /\
  result_of blob_test.ReaderSeek blob_test.seekerSize abcReader = Ok 3 /\
  state_of blob_test.ReaderSeek blob_test.seekerSize abcReader = abcReader.
Proof.
  assert (Hv : blob_test.validReader abcReader).
  { unfold blob_test.validReader. simpl. lia. }
  split; [exact Hv |].
  unfold result_of, state_of. rewrite (seekerSize_Reader abcReader Hv).
  split; reflexivity.
Defined.

End MoreSamples.
